(** * PageRank: a shallow embedding of [pagerank.py]

    The development models the core functions of the script
    ([transition_model], [sample_pagerank], [iterate_pagerank] with its
    helpers [has_not_converged] and [calculate_pr]) and the part of
    [crawl] that follows the reading of the files, and settles the
    properties the specification states about them.

    Modelling choices.
    - A Python [dict] is an association list in insertion order; the
      uniqueness of its keys is the predicate [NoDup (keys d)].
    - A Python [set] of pages is a list of pages without duplicates.
    - A Python [float] is an exact rational of [Q] in the general
      theorems: they state what the code computes up to rounding, and
      equations between computed numbers are stated with [==]. The module
      [B64] has the same functions on binary64 numbers; it is run on
      given inputs where rounding decides the outcome (a sum that misses
      [1] by one unit in the last place, a loop that never stops just
      below damping [1]).
    - A Python exception is the constructor [Raise] of [outcome].
    - The module [random] is a tape [u : nat -> Q] of numbers read one per
      draw; the state threaded through the code is the position on the tape.
      [random.choice] takes the element at [floor(r * len)], and
      [random.choices] bisects the cumulated weights at [r * total], for
      the number [r] read.
    - The [while] loop of [iterate_pagerank] runs on fuel; [OutOfFuel] is
      not a Python behaviour, it only says that the fuel was too small. *)

From Stdlib Require Import String QArith Qabs Qround ZArith List Bool Lia Lqa.
From Stdlib Require Import Setoid Morphisms.
From Stdlib Require PrimFloat.
Import ListNotations.

Local Open Scope Q_scope.

(** ** Outcomes of Python code *)

Inductive exn : Type :=
| KeyError
| ZeroDivisionError
| IndexError
| ValueError.

Inductive outcome (A : Type) : Type :=
| Ok (a : A)
| Raise (e : exn)
| OutOfFuel.

Arguments Ok {A} a.
Arguments Raise {A} e.
Arguments OutOfFuel {A}.

Definition bind {A B : Type} (m : outcome A) (f : A -> outcome B) : outcome B :=
  match m with
  | Ok a => f a
  | Raise e => Raise e
  | OutOfFuel => OutOfFuel
  end.

Notation "x <- m ;; k" := (bind m (fun x => k))
  (at level 61, m at next level, right associativity).

(** A [for] loop over a list whose body may raise. *)
Fixpoint for_each {A S : Type} (xs : list A) (body : S -> A -> outcome S) (s : S)
  : outcome S :=
  match xs with
  | [] => Ok s
  | x :: xs' => s' <- body s x ;; for_each xs' body s'
  end.

(** The loop of [bisect.bisect_right(a, x, lo, hi)]:
    [while lo < hi: mid = (lo + hi) // 2; if x < a[mid]: hi = mid;
    else: lo = mid + 1], then [return lo]. The order [lt] is that of the
    numbers of [a]; the fuel counts the turns left. *)
Fixpoint bisect_loop {A : Type} (lt : A -> A -> bool) (fuel : nat) (a : list A)
         (x : A) (lo hi : nat) : outcome nat :=
  match fuel with
  | O => OutOfFuel
  | S fuel' =>
      if Nat.ltb lo hi then
        let mid := Nat.div (lo + hi) 2 in
        match nth_error a mid with
        | None => Raise IndexError
        | Some c =>
            if lt x c then bisect_loop lt fuel' a x lo mid
            else bisect_loop lt fuel' a x (mid + 1) hi
        end
      else Ok lo
  end.

(** ** Pages, dictionaries and numbers *)

Definition page : Type := string.

Definition dict (V : Type) : Type := list (page * V).

Definition keys {V : Type} (d : dict V) : list page := map fst d.

Definition values {V : Type} (d : dict V) : list V := map snd d.

(** [d[k]] *)
Fixpoint dict_get {V : Type} (d : dict V) (k : page) : outcome V :=
  match d with
  | [] => Raise KeyError
  | (k', v) :: d' => if String.eqb k' k then Ok v else dict_get d' k
  end.

(** [d[k] = v]: an existing key keeps its place, a new key goes last. *)
Fixpoint dict_set {V : Type} (d : dict V) (k : page) (v : V) : dict V :=
  match d with
  | [] => [(k, v)]
  | (k', v') :: d' =>
      if String.eqb k' k then (k', v) :: d' else (k', v') :: dict_set d' k v
  end.

(** [k in s] for a set [s] *)
Definition mem (k : page) (s : list page) : bool :=
  existsb (String.eqb k) s.

(** [len(x)] as a number *)
Definition len {A : Type} (l : list A) : Q := inject_Z (Z.of_nat (List.length l)).

(** [a / b] *)
Definition pydiv (a b : Q) : outcome Q :=
  if Qeq_bool b 0 then Raise ZeroDivisionError else Ok (a / b).

(** [d[k] += x] *)
Definition dict_incr (d : dict Q) (k : page) (x : Q) : outcome (dict Q) :=
  v <- dict_get d k ;; Ok (dict_set d k (v + x)).

(** [{k: f(k) for k in ks}] *)
Definition dict_of_keys {V : Type} (ks : list page) (f : page -> outcome V)
  : outcome (dict V) :=
  for_each ks (fun acc k => v <- f k ;; Ok (dict_set acc k v)) [].

Definition corpus_t : Type := dict (list page).

(** The constants of the script. *)
Definition DAMPING : Q := 85 # 100.

Definition SAMPLES : Z := 10000.

Definition TOLERANCE : Q := 1 # 1000.

(** ** [transition_model] *)

Definition transition_model (corpus : corpus_t) (pg : page) (damping_factor : Q)
  : outcome (dict Q) :=
  links <- dict_get corpus pg ;;
  let n := len links in
  let N := len corpus in
  p <- pydiv (1 - damping_factor) N ;;
  tm <- dict_of_keys (keys corpus) (fun _ => Ok p) ;;
  for_each corpus
    (fun tm '(k, v) =>
       if String.eqb k pg then
         match v with
         | [] =>
             for_each (keys corpus)
               (fun tm pp => q <- pydiv 1 N ;; Ok (dict_set tm pp q)) tm
         | _ =>
             for_each v
               (fun tm link => q <- pydiv damping_factor n ;; dict_incr tm link q) tm
         end
       else Ok tm)
    tm.

(** ** [calculate_pr] *)

Definition calculate_pr (corpus : corpus_t) (damping_factor : Q)
           (current : dict Q) (N : Q) : outcome (dict Q) :=
  new <- dict_of_keys (keys corpus) (fun _ => pydiv (1 - damping_factor) N) ;;
  for_each (keys corpus)
    (fun new pg =>
       for_each corpus
         (fun new '(key, links) =>
            new <- match links with
                   | [] =>
                       c <- dict_get current key ;;
                       q <- pydiv (damping_factor * c) N ;;
                       dict_incr new pg q
                   | _ => Ok new
                   end ;;
            if mem pg links then
              c <- dict_get current key ;;
              q <- pydiv (damping_factor * c) (len links) ;;
              dict_incr new pg q
            else Ok new)
         new)
    new.

(** The body of the inner loop of [calculate_pr], for the page [pg]. *)
Definition pr_body (damping_factor N : Q) (current : dict Q) (pg : page)
  : dict Q -> page * list page -> outcome (dict Q) :=
  fun new '(key, links) =>
    new <- match links with
           | [] =>
               c <- dict_get current key ;;
               q <- pydiv (damping_factor * c) N ;;
               dict_incr new pg q
           | _ => Ok new
           end ;;
    if mem pg links then
      c <- dict_get current key ;;
      q <- pydiv (damping_factor * c) (len links) ;;
      dict_incr new pg q
    else Ok new.

(** ** The random source *)

Section Random.

(** The tape of the generator: [u i] is the i-th number it yields. *)
Variable u : nat -> Q.

(** A computation that reads the tape: from a position to an outcome
    and the next position. *)
Definition rand (A : Type) : Type := nat -> outcome (A * nat).

Definition ret {A : Type} (a : A) : rand A := fun pos => Ok (a, pos).

Definition bindR {A B : Type} (m : rand A) (f : A -> rand B) : rand B :=
  fun pos =>
    match m pos with
    | Ok (a, pos') => f a pos'
    | Raise e => Raise e
    | OutOfFuel => OutOfFuel
    end.

Definition lift {A : Type} (m : outcome A) : rand A :=
  fun pos =>
    match m with
    | Ok a => Ok (a, pos)
    | Raise e => Raise e
    | OutOfFuel => OutOfFuel
    end.

(** [random.random()] *)
Definition random : rand Q := fun pos => Ok (u pos, S pos).

(** [random.choice(seq)]: [IndexError] on an empty sequence, otherwise
    the element at index [floor(random() * len(seq))]. *)
Definition choice_index {A : Type} (r : Q) (seq : list A) : nat :=
  Z.to_nat (Qfloor (r * len seq)).

Definition choice {A : Type} (seq : list A) : rand A :=
  match seq with
  | [] => fun _ => Raise IndexError
  | _ =>
      bindR random (fun r =>
        match nth_error seq (choice_index r seq) with
        | Some a => ret a
        | None => lift (Raise IndexError)
        end)
  end.

(** [itertools.accumulate(weights)] *)
Fixpoint accumulate (acc : Q) (ws : list Q) : list Q :=
  match ws with
  | [] => []
  | w :: ws' => (acc + w) :: accumulate (acc + w) ws'
  end.

(** [bisect(cum, x, 0, hi)], the binary search of the module [bisect]. *)
Definition bisect (cum : list Q) (x : Q) (hi : nat) : outcome nat :=
  bisect_loop (fun x c => if Qlt_le_dec x c then true else false)
    (S hi) cum x 0 hi.

(** [random.choices(population, weights, k=1).pop()] *)
Definition choices {A : Type} (population : list A) (weights : list Q) : rand A :=
  let n := length population in
  let cum_weights := accumulate 0 weights in
  if negb (Nat.eqb (length cum_weights) n) then lift (Raise ValueError)
  else
    match last (map Some cum_weights) None with
    | None => lift (Raise IndexError)
    | Some total =>
        if Qle_bool total 0 then lift (Raise ValueError)
        else
          bindR random (fun r =>
          bindR (lift (bisect cum_weights (r * total) (n - 1))) (fun i =>
            match nth_error population i with
            | Some a => ret a
            | None => lift (Raise IndexError)
            end))
    end.

(** ** [sample_pagerank] *)

(** The loop [for i in range(n)]: the state is the current page and the
    list of samples. *)
Fixpoint sample_loop (corpus : corpus_t) (damping_factor : Q) (count : nat)
         (pg : page) (samples : list page) : rand (list page) :=
  match count with
  | O => ret samples
  | S count' =>
      bindR (lift (transition_model corpus pg damping_factor)) (fun tm =>
      let kys := keys tm in
      let vals := values tm in
      bindR (choices kys vals) (fun next_page =>
      sample_loop corpus damping_factor count' next_page (samples ++ [next_page])))
  end.

Definition sample_pagerank (corpus : corpus_t) (damping_factor : Q) (n : Z)
  : rand (dict Q) :=
  bindR (choice (keys corpus)) (fun starting_page =>
  bindR (sample_loop corpus damping_factor (Z.to_nat n) starting_page []) (fun samples =>
  lift (dict_of_keys (keys corpus)
          (fun k =>
             let n_k := count_occ string_dec samples k in
             pydiv (inject_Z (Z.of_nat n_k)) (inject_Z n))))).

(** ** [has_not_converged] and [iterate_pagerank] *)

Definition has_not_converged (previous current : dict Q) : rand bool :=
  bindR (choice (keys previous)) (fun i =>
  bindR (lift (dict_get current i)) (fun c =>
  bindR (lift (dict_get previous i)) (fun p =>
  ret (if Qlt_le_dec TOLERANCE (Qabs (c - p)) then true else false)))).

(** The loop [while has_not_converged(initial, next)]. *)
Fixpoint iterate_loop (fuel : nat) (corpus : corpus_t) (damping_factor N : Q)
         (initial next : dict Q) : rand (dict Q) :=
  match fuel with
  | O => fun _ => OutOfFuel
  | S fuel' =>
      bindR (has_not_converged initial next) (fun b =>
      if b then
        bindR (lift (calculate_pr corpus damping_factor next N)) (fun next' =>
        iterate_loop fuel' corpus damping_factor N next next')
      else ret next)
  end.

Definition iterate_pagerank (fuel : nat) (corpus : corpus_t) (damping_factor : Q)
  : rand (dict Q) :=
  let N := len corpus in
  bindR (lift (pydiv (1 - damping_factor) N)) (fun p =>
  bindR (lift (dict_of_keys (keys corpus) (fun _ => pydiv 1 N))) (fun initial =>
  bindR (lift (calculate_pr corpus damping_factor initial N)) (fun next =>
  iterate_loop fuel corpus damping_factor N initial next))).

End Random.

(** ** The code in binary64 *)

(** The same functions with the numbers of the machine: a [float] is a
    binary64 number and the operations round as Python's do. The
    functions are run on given inputs, where rounding decides. *)
Module B64.

Definition float : Type := PrimFloat.float.

(** [float(z)], exact below [2^53] in absolute value. *)
Fixpoint of_positive (p : positive) : float :=
  match p with
  | xH => PrimFloat.one
  | xO p' => PrimFloat.mul PrimFloat.two (of_positive p')
  | xI p' => PrimFloat.add (PrimFloat.mul PrimFloat.two (of_positive p')) PrimFloat.one
  end.

Definition of_Z (z : Z) : float :=
  match z with
  | Z0 => PrimFloat.zero
  | Zpos p => of_positive p
  | Zneg p => PrimFloat.opp (of_positive p)
  end.

(** The binary64 number nearest to a fraction of two such integers; so
    are read the literals [0.85] and [1e-3] and the numbers of the tape. *)
Definition of_Q (q : Q) : float :=
  PrimFloat.div (of_Z (Qnum q)) (of_Z (Zpos (Qden q))).

Definition len {A : Type} (l : list A) : float := of_Z (Z.of_nat (List.length l)).

Definition pydiv (a b : float) : outcome float :=
  if PrimFloat.eqb b PrimFloat.zero then Raise ZeroDivisionError
  else Ok (PrimFloat.div a b).

Definition dict_incr (d : dict float) (k : page) (x : float) : outcome (dict float) :=
  v <- dict_get d k ;; Ok (dict_set d k (PrimFloat.add v x)).

Definition DAMPING : float := of_Q (85 # 100).

Definition TOLERANCE : float := of_Q (1 # 1000).

Definition transition_model (corpus : corpus_t) (pg : page) (damping_factor : float)
  : outcome (dict float) :=
  links <- dict_get corpus pg ;;
  let n := len links in
  let N := len corpus in
  p <- pydiv (PrimFloat.sub PrimFloat.one damping_factor) N ;;
  tm <- dict_of_keys (keys corpus) (fun _ => Ok p) ;;
  for_each corpus
    (fun tm '(k, v) =>
       if String.eqb k pg then
         match v with
         | [] =>
             for_each (keys corpus)
               (fun tm pp => q <- pydiv PrimFloat.one N ;; Ok (dict_set tm pp q)) tm
         | _ =>
             for_each v
               (fun tm link => q <- pydiv damping_factor n ;; dict_incr tm link q) tm
         end
       else Ok tm)
    tm.

Definition calculate_pr (corpus : corpus_t) (damping_factor : float)
           (current : dict float) (N : float) : outcome (dict float) :=
  new <- dict_of_keys (keys corpus)
           (fun _ => pydiv (PrimFloat.sub PrimFloat.one damping_factor) N) ;;
  for_each (keys corpus)
    (fun new pg =>
       for_each corpus
         (fun new '(key, links) =>
            new <- match links with
                   | [] =>
                       c <- dict_get current key ;;
                       q <- pydiv (PrimFloat.mul damping_factor c) N ;;
                       dict_incr new pg q
                   | _ => Ok new
                   end ;;
            if mem pg links then
              c <- dict_get current key ;;
              q <- pydiv (PrimFloat.mul damping_factor c) (len links) ;;
              dict_incr new pg q
            else Ok new)
         new)
    new.

(** [sum(xs)] *)
Definition sum (xs : list float) : float :=
  fold_left PrimFloat.add xs (of_Z 0).

Section Random.

(** The tape of the generator, as for the exact model; [random.random()]
    yields the binary64 number nearest to the number read. *)
Variable u : nat -> Q.

Definition random : rand float := fun pos => Ok (of_Q (u pos), S pos).

(** [itertools.accumulate(weights)] *)
Fixpoint accumulate_from (acc : float) (ws : list float) : list float :=
  match ws with
  | [] => []
  | w :: ws' => PrimFloat.add acc w :: accumulate_from (PrimFloat.add acc w) ws'
  end.

Definition accumulate (ws : list float) : list float :=
  match ws with
  | [] => []
  | w :: ws' => w :: accumulate_from w ws'
  end.

Definition bisect (cum : list float) (x : float) (hi : nat) : outcome nat :=
  bisect_loop PrimFloat.ltb (S hi) cum x 0 hi.

(** [random.choices(population, weights, k=1).pop()] *)
Definition choices {A : Type} (population : list A) (weights : list float) : rand A :=
  let n := length population in
  let cum_weights := accumulate weights in
  if negb (Nat.eqb (length cum_weights) n) then lift (Raise ValueError)
  else
    match last (map Some cum_weights) None with
    | None => lift (Raise IndexError)
    | Some last_weight =>
        let total := PrimFloat.add last_weight PrimFloat.zero in
        if PrimFloat.leb total PrimFloat.zero then lift (Raise ValueError)
        else if negb (PrimFloat.is_finite total) then lift (Raise ValueError)
        else
          bindR random (fun r =>
          bindR (lift (bisect cum_weights (PrimFloat.mul r total) (n - 1))) (fun i =>
            match nth_error population i with
            | Some a => ret a
            | None => lift (Raise IndexError)
            end))
    end.

Fixpoint sample_loop (corpus : corpus_t) (damping_factor : float) (count : nat)
         (pg : page) (samples : list page) : rand (list page) :=
  match count with
  | O => ret samples
  | S count' =>
      bindR (lift (transition_model corpus pg damping_factor)) (fun tm =>
      let kys := keys tm in
      let vals := values tm in
      bindR (choices kys vals) (fun next_page =>
      sample_loop corpus damping_factor count' next_page (samples ++ [next_page])))
  end.

Definition sample_pagerank (corpus : corpus_t) (damping_factor : float) (n : Z)
  : rand (dict float) :=
  bindR (choice u (keys corpus)) (fun starting_page =>
  bindR (sample_loop corpus damping_factor (Z.to_nat n) starting_page []) (fun samples =>
  lift (dict_of_keys (keys corpus)
          (fun k =>
             let n_k := count_occ string_dec samples k in
             pydiv (of_Z (Z.of_nat n_k)) (of_Z n))))).

Definition has_not_converged (previous current : dict float) : rand bool :=
  bindR (choice u (keys previous)) (fun i =>
  bindR (lift (dict_get current i)) (fun c =>
  bindR (lift (dict_get previous i)) (fun p =>
  ret (PrimFloat.ltb TOLERANCE (PrimFloat.abs (PrimFloat.sub c p)))))).

Fixpoint iterate_loop (fuel : nat) (corpus : corpus_t) (damping_factor N : float)
         (initial next : dict float) : rand (dict float) :=
  match fuel with
  | O => fun _ => OutOfFuel
  | S fuel' =>
      bindR (has_not_converged initial next) (fun b =>
      if b then
        bindR (lift (calculate_pr corpus damping_factor next N)) (fun next' =>
        iterate_loop fuel' corpus damping_factor N next next')
      else ret next)
  end.

Definition iterate_pagerank (fuel : nat) (corpus : corpus_t) (damping_factor : float)
  : rand (dict float) :=
  let N := len corpus in
  bindR (lift (pydiv (PrimFloat.sub PrimFloat.one damping_factor) N)) (fun p =>
  bindR (lift (dict_of_keys (keys corpus) (fun _ => pydiv PrimFloat.one N))) (fun initial =>
  bindR (lift (calculate_pr corpus damping_factor initial N)) (fun next =>
  iterate_loop fuel corpus damping_factor N initial next))).

End Random.

End B64.

(** ** Well-formed inputs *)

(** A list read as a Python set, or as the keys of a dict: no repetition. *)
Fixpoint distinct (l : list page) : bool :=
  match l with
  | [] => true
  | x :: l' => negb (mem x l') && distinct l'
  end.

(** The link graph of the specification: a dict from pages to sets of
    pages, every link being a page of the corpus. *)
Definition link_graph (corpus : corpus_t) : bool :=
  distinct (keys corpus)
  && forallb (fun '(_, links) =>
                distinct links && forallb (fun l => mem l (keys corpus)) links)
       corpus.

(** The dict [current] has an entry for every page of the corpus. *)
Definition covers (current : dict Q) (corpus : corpus_t) : bool :=
  forallb (fun k => mem k (keys current)) (keys corpus).

(** Some link of [links] is not a page of the corpus. *)
Definition dangling (corpus : corpus_t) (links : list page) : bool :=
  existsb (fun l => negb (mem l (keys corpus))) links.

(** No entry of the dict is negative. *)
Definition nonneg (d : dict Q) : bool :=
  forallb (fun v => Qle_bool 0 v) (values d).

(** The numbers of the tape are those of [random.random()]: in [[0, 1)]. *)
Definition tape_ok (u : nat -> Q) : Prop := forall i, 0 <= u i /\ u i < 1.

(** The dict with the keys [ks], in this order, and the value [f k] at [k]. *)
Definition tabulate {V : Type} (ks : list page) (f : page -> V) : dict V :=
  map (fun k => (k, f k)) ks.

(** The table [f] changed at [k]. *)
Definition upd {V : Type} (f : page -> V) (k : page) (v : V) : page -> V :=
  fun k' => if String.eqb k' k then v else f k'.

(** The value of [d] at [k] as a number, [0] off the keys. *)
Definition value_at (d : dict Q) (k : page) : Q :=
  match dict_get d k with
  | Ok v => v
  | _ => 0
  end.

(** [sum(xs)] *)
Definition Qsum (xs : list Q) : Q := fold_right Qplus 0 xs.

(** The sum of [f k] over the pages [k] of [ks]. *)
Definition sum_over (ks : list page) (f : page -> Q) : Q := Qsum (map f ks).

(** The links of the page [k], none when [k] is not a page. *)
Definition links_of (corpus : corpus_t) (k : page) : list page :=
  match dict_get corpus k with
  | Ok links => links
  | _ => []
  end.

(** ** [crawl] *)

(** [crawl] once the files are read: [files] gives, in the order of
    [os.listdir], the name of each HTML file with the targets that
    [re.findall] finds in it. The first loop stores [set(links) -
    {filename}], the second keeps the links that are pages. *)
Definition crawl (files : list (page * list page)) : corpus_t :=
  let pages :=
    fold_left
      (fun pages '(filename, links) =>
         dict_set pages filename (remove string_dec filename (nodup string_dec links)))
      files [] in
  fold_left
    (fun pages filename =>
       dict_set pages filename
         (filter (fun link => mem link (keys pages)) (links_of pages filename)))
    (keys pages) pages.

(** [s.endswith(suffix)] *)
Fixpoint endswith (s suffix : string) : bool :=
  String.eqb s suffix
  || match s with
     | EmptyString => false
     | String _ s' => endswith s' suffix
     end.

(** The whole of [crawl] over a directory: [listing] gives, in the order
    of [os.listdir], the name of every file with the targets that
    [re.findall] finds in it; the files whose name does not end in
    [".html"] are passed over, unread. *)
Definition crawl_directory (listing : list (page * list page)) : corpus_t :=
  let pages :=
    fold_left
      (fun pages '(filename, links) =>
         if negb (endswith filename ".html") then pages
         else dict_set pages filename
                (remove string_dec filename (nodup string_dec links)))
      listing [] in
  fold_left
    (fun pages filename =>
       dict_set pages filename
         (filter (fun link => mem link (keys pages)) (links_of pages filename)))
    (keys pages) pages.

(** The files [crawl_directory] reads. *)
Definition html_files (listing : list (page * list page)) : list (page * list page) :=
  filter (fun '(filename, _) => endswith filename ".html") listing.

(** What [crawl] makes of the targets found in the file [filename],
    [names] being the names of the files read. *)
Definition crawl_links (names : list page) (filename : page) (links : list page)
  : list page :=
  filter (fun link => mem link names)
    (remove string_dec filename (nodup string_dec links)).

(** What holds of every link set once the first loop has stored it. *)
Definition stored_sets (pages : corpus_t) : Prop :=
  forall k v, In (k, v) pages -> NoDup v /\ ~ In k v.

(** ** The distributions and equations of the specification *)

(** The transition distribution as the specification words it; [links]
    is the link set of the current page. *)
Definition transition_distribution (corpus : corpus_t) (links : list page)
           (damping : Q) (k : page) : Q :=
  match links with
  | [] => 1 / len corpus
  | _ =>
      if mem k links
      then (1 - damping) / len corpus + damping / len links
      else (1 - damping) / len corpus
  end.

(** What the page [k] gives to the page [pg] in one relaxation, as the
    specification words it. *)
Definition contribution (corpus : corpus_t) (current : page -> Q) (k pg : page) : Q :=
  match links_of corpus k with
  | [] => current k / len corpus
  | links => if mem pg links then current k / len links else 0
  end.

(** The relaxation equation of the specification. *)
Definition relaxation (corpus : corpus_t) (damping : Q) (current : page -> Q)
           (pg : page) : Q :=
  (1 - damping) / len corpus
  + damping * sum_over (keys corpus) (fun k => contribution corpus current k pg).

(** What one turn of the inner loop of [calculate_pr] does to the entry of
    the page [pg], and the whole inner loop. *)
Definition pr_step (damping N : Q) (current : page -> Q) (pg : page) (a : Q)
           (item : page * list page) : Q :=
  let '(key, links) := item in
  let a' := match links with
            | [] => a + damping * current key / N
            | _ => a
            end in
  if mem pg links then a' + damping * current key / len links else a'.

Definition pr_entry (corpus : corpus_t) (damping N : Q) (current : page -> Q)
           (pg : page) : Q :=
  fold_left (pr_step damping N current pg) corpus ((1 - damping) / N).

(** The same contribution read off an item [(k, links)] of the corpus. *)
Definition item_contribution (N : Q) (current : page -> Q) (pg : page)
           (item : page * list page) : Q :=
  let '(k, links) := item in
  match links with
  | [] => current k / N
  | _ => if mem pg links then current k / len links else 0
  end.

(** The vector [iterate_pagerank] starts from, and the vector after [t]
    relaxations. *)
Definition initial_ranks (corpus : corpus_t) : outcome (dict Q) :=
  dict_of_keys (keys corpus) (fun _ => pydiv 1 (len corpus)).

Fixpoint relax_n (corpus : corpus_t) (damping : Q) (t : nat) : outcome (dict Q) :=
  match t with
  | O => initial_ranks corpus
  | S t' => v <- relax_n corpus damping t' ;; calculate_pr corpus damping v (len corpus)
  end.

(** The distance between two vectors: the sum over the pages of the
    absolute differences of their entries. *)
Definition distance (ks : list page) (x y : page -> Q) : Q :=
  sum_over ks (fun k => Qabs (x k - y k)).

(** The vector after [t] relaxations, and how far the next one is. *)
Definition iterate_vec (corpus : corpus_t) (damping : Q) (t : nat) : dict Q :=
  match relax_n corpus damping t with
  | Ok v => v
  | _ => []
  end.

Definition iterate_gap (corpus : corpus_t) (damping : Q) (t : nat) : Q :=
  distance (keys corpus)
    (value_at (iterate_vec corpus damping (S t)))
    (value_at (iterate_vec corpus damping t)).

(** The pages of a random walk: [walk u corpus damping pg pos samples]
    says that [samples] are the pages drawn one after the other, each by
    a weighted draw from the transition model of the page before it,
    the first from that of [pg], the tape being read from [pos] on. *)
Inductive walk (u : nat -> Q) (corpus : corpus_t) (damping : Q)
  : page -> nat -> list page -> Prop :=
| walk_done (pg : page) (pos : nat) : walk u corpus damping pg pos []
| walk_draw (pg : page) (pos : nat) (tm : dict Q) (next_page : page)
            (rest : list page) :
    transition_model corpus pg damping = Ok tm ->
    choices u (keys tm) (values tm) pos = Ok (next_page, S pos) ->
    walk u corpus damping next_page (S pos) rest ->
    walk u corpus damping pg pos (next_page :: rest).

(** The number of times [k] was sampled, as a number. *)
Definition times (samples : list page) (k : page) : Q :=
  inject_Z (Z.of_nat (count_occ string_dec samples k)).

(** ** Small corpora and tapes *)

Local Open Scope string_scope.

(** Two pages that link to each other. *)
Definition corpus_pair : corpus_t := [("A", ["B"]); ("B", ["A"])].

(** Two pages that link to each other, a third that links to the first. *)
Definition corpus_fan : corpus_t := [("A", ["B"]); ("B", ["A"]); ("C", ["A"])].

(** A page that links to two others, which link back to it. *)
Definition corpus_hub : corpus_t := [("A", ["B"; "C"]); ("B", ["A"]); ("C", ["A"])].

Local Close Scope string_scope.

Local Open Scope string_scope.

(** A directory: two HTML files that link to each other, the first also
    to itself and to a text file, and a text file. *)
Definition listing_small : list (page * list page) :=
  [("1.html", ["2.html"; "1.html"; "notes.txt"; "2.html"]);
   ("2.html", ["1.html"; "3.html"]);
   ("notes.txt", ["1.html"])].

(** A dict that is no link graph: ["A"] links to a page that is missing. *)
Definition corpus_dangling : corpus_t := [("A", ["B"; "X"]); ("B", ["A"])].

(** Vectors over the pages of [corpus_pair], and one that lacks ["B"]. *)
Definition pair_uniform : dict Q := [("A", 1 # 2); ("B", 1 # 2)].

Definition pair_skewed : dict Q := [("A", 1 # 4); ("B", 3 # 4)].

Definition pair_partial : dict Q := [("A", 1 # 2)].

Local Close Scope string_scope.

(** The tape that always yields [1/2]. *)
Definition tape_half : nat -> Q := fun _ => 1 # 2.

(** The tape that yields [0], then [9/10] for ever. *)
Definition tape_low_high : nat -> Q :=
  fun i => match i with O => 0 | S _ => 9 # 10 end.

(** The two vectors between which the iteration moves on [corpus_hub]
    at damping [1]: the uniform one and [(2/3, 1/6, 1/6)]. *)
Definition hub_osc (b : bool) : page -> Q :=
  fun k => if b then 1 # 3 else if String.eqb k "A" then 2 # 3 else 1 # 6.

(** The dict [v] is over the pages of the corpus, with the values of [f]. *)
Definition agrees (corpus : corpus_t) (v : dict Q) (f : page -> Q) : Prop :=
  keys v = keys corpus /\ forall k, In k (keys corpus) -> value_at v k == f k.

(** A tape for a walk of ten draws on [corpus_fan] from ["B"]. *)
Definition tape_walk : nat -> Q :=
  fun i => nth i [1 # 2; 1 # 2; 1 # 2; 1 # 2; 1 # 2; 1 # 2; 1 # 2; 1 # 2;
                  1 # 100; 97 # 100; 1 # 2] (1 # 2).

(** The largest binary64 number below [1]: [1 - 2^-53]. *)
Definition below_one : B64.float := PrimFloat.next_down PrimFloat.one.

(** The binary64 iteration on [corpus_hub] at damping [below_one]: the
    uniform vector, then [t] relaxations; and its first four vectors. *)
Fixpoint hub_run (t : nat) : outcome (dict B64.float) :=
  match t with
  | O => dict_of_keys (keys corpus_hub)
           (fun _ => B64.pydiv PrimFloat.one (B64.len corpus_hub))
  | S t' =>
      v <- hub_run t' ;;
      B64.calculate_pr corpus_hub below_one v (B64.len corpus_hub)
  end.

Definition hub_b64_0 : dict B64.float :=
  Eval cbv in match hub_run 0 with Ok v => v | _ => [] end.

Definition hub_b64_1 : dict B64.float :=
  Eval cbv in match hub_run 1 with Ok v => v | _ => [] end.

Definition hub_b64_2 : dict B64.float :=
  Eval cbv in match hub_run 2 with Ok v => v | _ => [] end.

Definition hub_b64_3 : dict B64.float :=
  Eval cbv in match hub_run 3 with Ok v => v | _ => [] end.

(** The two vectors between which this iteration moves from then on. *)
Definition hub_b64 (b : bool) : dict B64.float :=
  if b then hub_b64_2 else hub_b64_3.

(** The test of [has_not_converged] at the page [i], in binary64. *)
Definition b64_differs (previous current : dict B64.float) (i : page) : outcome bool :=
  c <- dict_get current i ;;
  p <- dict_get previous i ;;
  Ok (PrimFloat.ltb B64.TOLERANCE (PrimFloat.abs (PrimFloat.sub c p))).

(** The vectors after one and two relaxations on [corpus_fan] at
    damping [DAMPING]. *)
Definition fan_ranks_1 : dict Q :=
  Eval cbv in iterate_vec corpus_fan DAMPING 1.

Definition fan_ranks_2 : dict Q :=
  Eval cbv in iterate_vec corpus_fan DAMPING 2.

(** * Properties *)

(** ** Dictionaries *)

Lemma mem_In (k : page) (s : list page) : mem k s = true <-> In k s.
Proof.
  unfold mem. rewrite existsb_exists. split.
  - intros [x [Hx He]]. apply String.eqb_eq in He. now subst.
  - intros H. exists k. split; [assumption | apply String.eqb_refl].
Qed.

Lemma mem_not_In (k : page) (s : list page) : mem k s = false <-> ~ In k s.
Proof.
  rewrite <- mem_In. destruct (mem k s); split; intros; congruence.
Qed.

Lemma distinct_NoDup (l : list page) : distinct l = true <-> NoDup l.
Proof.
  induction l as [|x l IH]; simpl.
  - split; [constructor | reflexivity].
  - rewrite andb_true_iff, negb_true_iff, mem_not_In, IH. split.
    + intros [H1 H2]. now constructor.
    + intros H. inversion H. now split.
Qed.

Lemma keys_tabulate {V : Type} (ks : list page) (f : page -> V) :
  keys (tabulate ks f) = ks.
Proof.
  unfold keys, tabulate. rewrite map_map. simpl. apply map_id.
Qed.

Lemma tabulate_ext {V : Type} (ks : list page) (f g : page -> V) :
  (forall k, In k ks -> f k = g k) -> tabulate ks f = tabulate ks g.
Proof.
  intros H. unfold tabulate. apply map_ext_in. intros k Hk. f_equal. now apply H.
Qed.

Lemma get_tabulate {V : Type} (ks : list page) (f : page -> V) (k : page) :
  In k ks -> dict_get (tabulate ks f) k = Ok (f k).
Proof.
  induction ks as [|k' ks IH]; simpl; [contradiction|].
  intros [->|H].
  - now rewrite String.eqb_refl.
  - destruct (String.eqb_spec k' k) as [->|_]; [reflexivity | now apply IH].
Qed.

(** A dict is the table of its own values. *)
Lemma dict_tabulate (d : dict Q) :
  NoDup (keys d) -> d = tabulate (keys d) (value_at d).
Proof.
  induction d as [|[k v] d IH]; simpl; [reflexivity|].
  intros H. inversion H as [|? ? Hk Hd]; subst.
  unfold value_at at 1. simpl. rewrite String.eqb_refl. f_equal.
  rewrite IH at 1 by assumption. apply tabulate_ext.
  intros k' Hk'. unfold value_at. simpl.
  destruct (String.eqb_spec k k') as [->|_]; [contradiction | reflexivity].
Qed.

Lemma set_tabulate {V : Type} (ks : list page) (f : page -> V) (k : page) (v : V) :
  NoDup ks -> In k ks ->
  dict_set (tabulate ks f) k v = tabulate ks (upd f k v).
Proof.
  induction ks as [|k' ks IH]; simpl; [contradiction|].
  intros Hnd Hin. inversion Hnd as [|? ? Hk' Hks]; subst.
  unfold upd at 1. destruct (String.eqb_spec k' k) as [->|Hne].
  - f_equal. apply tabulate_ext. intros x Hx. unfold upd.
    destruct (String.eqb_spec x k) as [->|_]; [contradiction | reflexivity].
  - f_equal. apply IH; [assumption|]. destruct Hin; [contradiction | assumption].
Qed.

Lemma set_tabulate_new {V : Type} (ks : list page) (f : page -> V) (k : page) :
  ~ In k ks -> dict_set (tabulate ks f) k (f k) = tabulate (ks ++ [k]) f.
Proof.
  induction ks as [|k' ks IH]; simpl; [reflexivity|].
  intros H. destruct (String.eqb_spec k' k) as [->|_].
  - exfalso. apply H. now left.
  - f_equal. apply IH. intros H'. apply H. now right.
Qed.

Lemma dict_of_keys_from {V : Type} (ks : list page) (f : page -> outcome V)
      (g : page -> V) (pre : list page) :
  NoDup (pre ++ ks) -> (forall k, In k ks -> f k = Ok (g k)) ->
  for_each ks (fun acc k => v <- f k ;; Ok (dict_set acc k v)) (tabulate pre g)
  = Ok (tabulate (pre ++ ks) g).
Proof.
  revert pre. induction ks as [|k ks IH]; intros pre Hnd Hf.
  - simpl. now rewrite app_nil_r.
  - simpl. rewrite Hf by (now left). simpl.
    rewrite set_tabulate_new.
    + replace (pre ++ k :: ks) with ((pre ++ [k]) ++ ks)
        by (now rewrite <- app_assoc).
      apply IH.
      * now rewrite <- app_assoc.
      * intros k' Hk'. apply Hf. now right.
    + apply NoDup_remove_2 in Hnd. intros H. apply Hnd. apply in_or_app. now left.
Qed.

(** A dict comprehension over distinct keys is a table. *)
Lemma dict_of_keys_tabulate {V : Type} (ks : list page) (f : page -> outcome V)
      (g : page -> V) :
  NoDup ks -> (forall k, In k ks -> f k = Ok (g k)) ->
  dict_of_keys ks f = Ok (tabulate ks g).
Proof.
  intros Hnd Hf. apply (dict_of_keys_from ks f g []); assumption.
Qed.

Lemma dict_get_In {V : Type} (d : dict V) (k : page) (v : V) :
  dict_get d k = Ok v -> In (k, v) d.
Proof.
  induction d as [|[k' v'] d IH]; simpl; [discriminate|].
  destruct (String.eqb_spec k' k) as [->|_].
  - intros [= ->]. now left.
  - intros H. right. now apply IH.
Qed.

Lemma dict_get_has {V : Type} (d : dict V) (k : page) :
  In k (keys d) -> exists v, dict_get d k = Ok v.
Proof.
  induction d as [|[k' v'] d IH]; simpl; [contradiction|].
  intros H. destruct (String.eqb_spec k' k) as [->|Hne].
  - now exists v'.
  - apply IH. destruct H; [contradiction | assumption].
Qed.

Lemma dict_get_miss {V : Type} (d : dict V) (k : page) :
  ~ In k (keys d) -> dict_get d k = Raise KeyError.
Proof.
  induction d as [|[k' v'] d IH]; simpl; [reflexivity|].
  intros H. destruct (String.eqb_spec k' k) as [->|Hne].
  - exfalso. apply H. now left.
  - apply IH. intros H'. apply H. now right.
Qed.

Lemma link_graph_keys (corpus : corpus_t) :
  link_graph corpus = true -> NoDup (keys corpus).
Proof.
  unfold link_graph. rewrite andb_true_iff. intros [H _].
  now apply distinct_NoDup.
Qed.

Lemma link_graph_links (corpus : corpus_t) (k : page) (links : list page) :
  link_graph corpus = true -> In (k, links) corpus ->
  NoDup links /\ incl links (keys corpus).
Proof.
  unfold link_graph. rewrite andb_true_iff. intros [_ H] Hin.
  rewrite forallb_forall in H. specialize (H _ Hin). simpl in H.
  apply andb_true_iff in H. destruct H as [H1 H2]. split.
  - now apply distinct_NoDup.
  - intros l Hl. rewrite forallb_forall in H2. apply mem_In. now apply H2.
Qed.

(** ** Numbers *)

Lemma len_pos {A : Type} (l : list A) : l <> [] -> 0 < len l.
Proof.
  destruct l as [|a l]; [congruence|]. intros _. unfold len.
  change 0 with (inject_Z 0). rewrite <- Zlt_Qlt. simpl. lia.
Qed.

Lemma Qpos_nonzero (x : Q) : 0 < x -> ~ x == 0.
Proof. intros H E. rewrite E in H. now apply Qlt_irrefl in H. Qed.

Lemma len_nonzero {A : Type} (l : list A) : l <> [] -> ~ len l == 0.
Proof. intros H. now apply Qpos_nonzero, len_pos. Qed.

Lemma pydiv_ok (a b : Q) : ~ b == 0 -> pydiv a b = Ok (a / b).
Proof.
  intros H. unfold pydiv. destruct (Qeq_bool b 0) eqn:E; [|reflexivity].
  apply Qeq_bool_eq in E. contradiction.
Qed.

Lemma pydiv_len {A : Type} (a : Q) (l : list A) :
  l <> [] -> pydiv a (len l) = Ok (a / len l).
Proof.
  intros H. now apply pydiv_ok, len_nonzero.
Qed.

(** ** The loops of [transition_model] *)

Lemma for_each_cons {A S : Type} (x : A) (xs : list A)
      (body : S -> A -> outcome S) (s : S) :
  for_each (x :: xs) body s = (s' <- body s x ;; for_each xs body s').
Proof. reflexivity. Qed.

Lemma bind_Ok {A B : Type} (a : A) (f : A -> outcome B) :
  (x <- Ok a ;; f x) = f a.
Proof. reflexivity. Qed.

(** One turn of a [for] loop, the body left folded. *)
Ltac loop_step := rewrite for_each_cons; cbv beta.

(** The loop over the items of a dict whose body only acts at one key
    runs that body once, on the value of the key. *)
Lemma for_each_at_key {V S : Type} (d : dict V) (pg : page) (v : V)
      (F : S -> V -> outcome S) (s : S) :
  NoDup (keys d) -> dict_get d pg = Ok v ->
  for_each d (fun s '(k, w) => if String.eqb k pg then F s w else Ok s) s = F s v.
Proof.
  induction d as [|[k w] d IH]; simpl; [discriminate|].
  intros Hnd Hget. inversion Hnd as [|? ? Hk Hd]; subst.
  destruct (String.eqb_spec k pg) as [->|Hne].
  - injection Hget as ->.
    assert (Hnoop : forall s',
               for_each d (fun s '(k, w) => if String.eqb k pg then F s w else Ok s) s'
               = Ok s').
    { clear IH Hd Hnd. induction d as [|[k' w'] d IHd]; intros s'; simpl; [reflexivity|].
      destruct (String.eqb_spec k' pg) as [E|_].
      - exfalso. apply Hk. left. exact E.
      - apply IHd. intros H. apply Hk. right. exact H. }
    destruct (F s v); simpl; auto.
  - now apply IH.
Qed.

Lemma set_all_tabulate (ks ks' : list page) (f : page -> Q) (N : Q) :
  NoDup ks -> incl ks' ks -> ~ N == 0 ->
  for_each ks' (fun tm pp => q <- pydiv 1 N ;; Ok (dict_set tm pp q)) (tabulate ks f)
  = Ok (tabulate ks (fun k => if mem k ks' then 1 / N else f k)).
Proof.
  intros Hnd Hincl HN. rewrite (pydiv_ok 1 N HN). revert f Hincl.
  induction ks' as [|k ks' IH]; intros f Hincl; [reflexivity|].
  loop_step. rewrite !bind_Ok.
  rewrite set_tabulate by (auto with datatypes).
  rewrite IH by (intros x Hx; apply Hincl; now right).
  f_equal. apply tabulate_ext. intros x _. unfold upd.
  change (mem x (k :: ks')) with (String.eqb x k || mem x ks')%bool.
  destruct (String.eqb x k); simpl; [now destruct (mem x ks') | reflexivity].
Qed.

Lemma incr_all_tabulate (ks ls : list page) (f : page -> Q) (d n : Q) :
  NoDup ks -> NoDup ls -> incl ls ks -> ~ n == 0 ->
  for_each ls (fun tm link => q <- pydiv d n ;; dict_incr tm link q) (tabulate ks f)
  = Ok (tabulate ks (fun k => if mem k ls then f k + d / n else f k)).
Proof.
  intros Hnd Hls Hincl Hn. rewrite (pydiv_ok d n Hn). revert f Hincl.
  induction Hls as [|l ls Hl Hls IH]; intros f Hincl; [reflexivity|].
  loop_step. rewrite bind_Ok. unfold dict_incr at 1.
  rewrite get_tabulate by (auto with datatypes). rewrite !bind_Ok.
  rewrite set_tabulate by (auto with datatypes).
  rewrite IH by (intros x Hx; apply Hincl; now right).
  f_equal. apply tabulate_ext. intros x _. unfold upd.
  change (mem x (l :: ls)) with (String.eqb x l || mem x ls)%bool.
  destruct (String.eqb_spec x l) as [->|_]; simpl; [|reflexivity].
  apply mem_not_In in Hl. now rewrite Hl.
Qed.

Lemma transition_model_table (corpus : corpus_t) (pg : page)
        (links : list page) (damping : Q) :
  link_graph corpus = true ->
  dict_get corpus pg = Ok links ->
  transition_model corpus pg damping
  = Ok (tabulate (keys corpus) (transition_distribution corpus links damping)).
Proof.
  intros Hwf Hget.
  pose proof (link_graph_keys _ Hwf) as Hnd.
  destruct (link_graph_links _ _ _ Hwf (dict_get_In _ _ _ Hget)) as [Hls Hincl].
  assert (Hne : corpus <> []) by (destruct corpus; [discriminate | congruence]).
  pose proof (len_pos _ Hne) as HN.
  unfold transition_model. rewrite Hget. simpl.
  rewrite pydiv_len by assumption. simpl.
  rewrite (dict_of_keys_tabulate _ _ (fun _ => (1 - damping) / len corpus))
    by auto. simpl.
  rewrite (for_each_at_key corpus pg links
             (fun tm v =>
                match v with
                | [] => for_each (keys corpus)
                          (fun tm pp => q <- pydiv 1 (len corpus) ;; Ok (dict_set tm pp q)) tm
                | _ => for_each v
                         (fun tm link => q <- pydiv damping (len links) ;; dict_incr tm link q) tm
                end)) by assumption.
  destruct links as [|l links'].
  - rewrite set_all_tabulate; [|assumption|apply incl_refl|now apply len_nonzero].
    f_equal. apply tabulate_ext. intros k Hk. simpl.
    apply mem_In in Hk. now rewrite Hk.
  - cbv iota.
    rewrite incr_all_tabulate; [reflexivity|assumption|assumption|assumption|].
    now apply len_nonzero.
Qed.

(** ** Sums over the pages *)

Lemma len_cons {A : Type} (a : A) (l : list A) : len (a :: l) == 1 + len l.
Proof.
  unfold len. change (List.length (a :: l)) with (S (List.length l)).
  rewrite Nat2Z.inj_succ, <- Z.add_1_l, inject_Z_plus. reflexivity.
Qed.

Lemma len_nil {A : Type} : len (@nil A) == 0.
Proof. reflexivity. Qed.

Lemma len_nonneg {A : Type} (l : list A) : 0 <= len l.
Proof.
  unfold len. change 0 with (inject_Z 0). rewrite <- Zle_Qle. lia.
Qed.

Lemma sum_over_cons (k : page) (ks : list page) (f : page -> Q) :
  sum_over (k :: ks) f = f k + sum_over ks f.
Proof. reflexivity. Qed.

Lemma sum_over_ext (ks : list page) (f g : page -> Q) :
  (forall k, In k ks -> f k == g k) -> sum_over ks f == sum_over ks g.
Proof.
  induction ks as [|k ks IH]; intros H; [reflexivity|].
  rewrite !sum_over_cons, H, IH; [reflexivity | | now left].
  intros x Hx. apply H. now right.
Qed.

Lemma sum_over_le (ks : list page) (f g : page -> Q) :
  (forall k, In k ks -> f k <= g k) -> sum_over ks f <= sum_over ks g.
Proof.
  induction ks as [|k ks IH]; intros H; [apply Qle_refl|].
  rewrite !sum_over_cons. apply Qplus_le_compat; [apply H; now left|].
  apply IH. intros x Hx. apply H. now right.
Qed.

Lemma sum_over_const (ks : list page) (c : Q) :
  sum_over ks (fun _ => c) == len ks * c.
Proof.
  induction ks as [|k ks IH]; [rewrite len_nil; unfold sum_over; simpl; lra|].
  rewrite sum_over_cons, IH, len_cons. lra.
Qed.

Lemma sum_over_zero (ks : list page) : sum_over ks (fun _ => 0) == 0.
Proof. rewrite sum_over_const. lra. Qed.

Lemma sum_over_plus (ks : list page) (f g : page -> Q) :
  sum_over ks (fun k => f k + g k) == sum_over ks f + sum_over ks g.
Proof.
  induction ks as [|k ks IH]; [unfold sum_over; simpl; lra|].
  rewrite !sum_over_cons, IH. lra.
Qed.

Lemma sum_over_scale (ks : list page) (c : Q) (f : page -> Q) :
  sum_over ks (fun k => c * f k) == c * sum_over ks f.
Proof.
  induction ks as [|k ks IH]; [unfold sum_over; simpl; lra|].
  rewrite !sum_over_cons, IH. lra.
Qed.

Lemma sum_over_nonneg (ks : list page) (f : page -> Q) :
  (forall k, In k ks -> 0 <= f k) -> 0 <= sum_over ks f.
Proof.
  intros H. rewrite <- (sum_over_zero ks). now apply sum_over_le.
Qed.

Lemma sum_over_abs (ks : list page) (f : page -> Q) :
  Qabs (sum_over ks f) <= sum_over ks (fun k => Qabs (f k)).
Proof.
  induction ks as [|k ks IH]; [unfold sum_over; simpl; apply Qle_refl|].
  rewrite !sum_over_cons.
  eapply Qle_trans; [apply Qabs_triangle|]. now apply Qplus_le_compat; [apply Qle_refl|].
Qed.

Lemma sum_over_swap (ks js : list page) (f : page -> page -> Q) :
  sum_over ks (fun k => sum_over js (fun j => f k j))
  == sum_over js (fun j => sum_over ks (fun k => f k j)).
Proof.
  induction ks as [|k ks IH].
  - unfold sum_over at 1. simpl. now rewrite sum_over_zero.
  - rewrite sum_over_cons, IH.
    rewrite <- sum_over_plus. apply sum_over_ext. intros j _.
    now rewrite sum_over_cons.
Qed.

(** The sum of an indicator of one page. *)
Lemma sum_over_at (ks : list page) (l : page) (c : Q) :
  NoDup ks -> In l ks ->
  sum_over ks (fun k => if String.eqb k l then c else 0) == c.
Proof.
  induction ks as [|k ks IH]; [contradiction|].
  intros Hnd Hin. inversion Hnd as [|? ? Hk Hks]; subst.
  rewrite sum_over_cons. destruct (String.eqb_spec k l) as [->|Hne].
  - rewrite (sum_over_ext ks _ (fun _ => 0)).
    + rewrite sum_over_zero. lra.
    + intros x Hx. destruct (String.eqb_spec x l) as [->|_];
        [contradiction | reflexivity].
  - rewrite IH; [lra | assumption |]. destruct Hin; [contradiction | assumption].
Qed.

(** The sum of an indicator of a set of pages of the corpus. *)
Lemma sum_over_mem (ks ls : list page) (c : Q) :
  NoDup ks -> NoDup ls -> incl ls ks ->
  sum_over ks (fun k => if mem k ls then c else 0) == len ls * c.
Proof.
  intros Hnd Hls. induction Hls as [|l ls Hl Hls IH]; intros Hincl.
  - simpl mem. rewrite sum_over_zero, len_nil. lra.
  - rewrite (sum_over_ext ks _
               (fun k => (if String.eqb k l then c else 0)
                         + (if mem k ls then c else 0))).
    + rewrite sum_over_plus, sum_over_at, IH, len_cons; try lra; auto with datatypes.
      intros x Hx. apply Hincl. now right.
    + intros k _.
      change (mem k (l :: ls)) with (String.eqb k l || mem k ls)%bool.
      destruct (String.eqb_spec k l) as [->|_]; simpl.
      * apply mem_not_In in Hl. rewrite Hl. lra.
      * destruct (mem k ls); lra.
Qed.

Lemma values_tabulate (ks : list page) (f : page -> Q) :
  Qsum (values (tabulate ks f)) = sum_over ks f.
Proof.
  unfold values, tabulate, sum_over. now rewrite map_map.
Qed.

(** ** [transition_model] returns a distribution *)

(** C1. On a link graph and one of its pages, [transition_model] returns
    the distribution of the specification: [1/N] everywhere when the page
    has no link, otherwise [(1 - damping)/N] at every page plus
    [damping/|L|] at the pages the current page links to. The entries
    come in the order of the pages of the corpus. *)
Theorem transition_model_distribution (corpus : corpus_t) (pg : page)
        (links : list page) (damping : Q) :
  link_graph corpus = true ->
  dict_get corpus pg = Ok links ->
  transition_model corpus pg damping
  = Ok (tabulate (keys corpus) (transition_distribution corpus links damping)).
Proof. apply transition_model_table. Qed.

Lemma Qdiv_nonneg (a b : Q) : 0 <= a -> 0 <= b -> 0 <= a / b.
Proof.
  intros Ha Hb. unfold Qdiv. apply Qmult_le_0_compat; [assumption|].
  now apply Qinv_le_0_compat.
Qed.

Lemma transition_distribution_nonneg (corpus : corpus_t) (links : list page)
      (damping : Q) (k : page) :
  0 <= damping <= 1 -> 0 <= transition_distribution corpus links damping k.
Proof.
  intros [H0 H1]. unfold transition_distribution.
  pose proof (len_nonneg corpus) as HN. pose proof (len_nonneg links) as Hn.
  assert (Hp : 0 <= (1 - damping) / len corpus) by (apply Qdiv_nonneg; lra).
  assert (Hq : 0 <= damping / len links) by (apply Qdiv_nonneg; lra).
  destruct links; [apply Qdiv_nonneg; lra|]. destruct (mem k _); lra.
Qed.

Lemma transition_distribution_sum (corpus : corpus_t) (links : list page)
      (damping : Q) :
  NoDup (keys corpus) -> NoDup links -> incl links (keys corpus) ->
  corpus <> [] ->
  sum_over (keys corpus) (transition_distribution corpus links damping) == 1.
Proof.
  intros Hnd Hls Hincl Hne.
  assert (HN : len (keys corpus) == len corpus)
    by (unfold len, keys; now rewrite length_map).
  pose proof (len_nonzero _ Hne) as HN0.
  destruct links as [|l links'].
  - unfold transition_distribution. rewrite sum_over_const, HN. now field.
  - remember (l :: links') as links eqn:E.
    assert (Hn0 : ~ len links == 0) by (apply len_nonzero; subst; discriminate).
    rewrite (sum_over_ext _ _
               (fun k => (1 - damping) / len corpus
                         + (if mem k links then damping / len links else 0))).
    + rewrite sum_over_plus, sum_over_const, sum_over_mem, HN by assumption.
      now field.
    + intros k _. unfold transition_distribution. rewrite E at 1.
      destruct (mem k links); lra.
Qed.

(** C7. On a link graph, one of its pages and a damping factor of
    [[0, 1]], the dict [transition_model] returns has the pages of the
    corpus as its keys, each once, its values are not negative, and their
    sum is within [1e-9] of [1] (it is [1]: the numbers are exact). *)
Theorem transition_model_is_distribution (corpus : corpus_t) (pg : page)
        (damping : Q) :
  link_graph corpus = true ->
  In pg (keys corpus) ->
  0 <= damping <= 1 ->
  exists tm,
    transition_model corpus pg damping = Ok tm
    /\ keys tm = keys corpus
    /\ NoDup (keys tm)
    /\ (forall k v, In (k, v) tm -> 0 <= v)
    /\ Qabs (Qsum (values tm) - 1) <= 1 # 1000000000.
Proof.
  intros Hwf Hpg Hd.
  destruct (dict_get_has _ _ Hpg) as [links Hget].
  pose proof (link_graph_keys _ Hwf) as Hnd.
  destruct (link_graph_links _ _ _ Hwf (dict_get_In _ _ _ Hget)) as [Hls Hincl].
  eexists. split; [apply transition_model_table; eassumption|].
  rewrite keys_tabulate. repeat split; try assumption.
  - intros k v Hin. unfold tabulate in Hin. apply in_map_iff in Hin.
    destruct Hin as [x [[= <- <-] _]]. now apply transition_distribution_nonneg.
  - rewrite values_tabulate, transition_distribution_sum; try assumption.
    + discriminate.
    + intros ->. contradiction.
Qed.

(** ** [calculate_pr] computes the relaxation *)

Lemma dict_get_value_at (d : dict Q) (k : page) :
  In k (keys d) -> dict_get d k = Ok (value_at d k).
Proof.
  intros H. destruct (dict_get_has _ _ H) as [v Hv].
  unfold value_at. now rewrite Hv.
Qed.

Lemma value_at_tabulate (ks : list page) (f : page -> Q) (k : page) :
  In k ks -> value_at (tabulate ks f) k = f k.
Proof. intros H. unfold value_at. now rewrite get_tabulate. Qed.

Lemma dict_get_of_In {V : Type} (d : dict V) (k : page) (v : V) :
  NoDup (keys d) -> In (k, v) d -> dict_get d k = Ok v.
Proof.
  induction d as [|[k' v'] d IH]; simpl; [contradiction|].
  intros Hnd Hin. inversion Hnd as [|? ? Hk Hd]; subst.
  destruct (String.eqb_spec k' k) as [->|Hne].
  - destruct Hin as [[= ->]|Hin]; [reflexivity|].
    exfalso. apply Hk. change k with (fst (k, v)). now apply in_map.
  - destruct Hin as [[= -> ->]|Hin]; [congruence | now apply IH].
Qed.

Lemma incr_tabulate (ks : list page) (f : page -> Q) (pg : page) (q : Q) :
  NoDup ks -> In pg ks ->
  dict_incr (tabulate ks f) pg q = Ok (tabulate ks (upd f pg (f pg + q))).
Proof.
  intros Hnd Hin. unfold dict_incr.
  rewrite get_tabulate by assumption. rewrite bind_Ok.
  now rewrite set_tabulate.
Qed.

Lemma upd_upd {V : Type} (f : page -> V) (k : page) (v w : V) (x : page) :
  upd (upd f k v) k w x = upd f k w x.
Proof. unfold upd. now destruct (String.eqb x k). Qed.

Lemma upd_at {V : Type} (f : page -> V) (k : page) (v : V) : upd f k v k = v.
Proof. unfold upd. now rewrite String.eqb_refl. Qed.

Lemma pr_step_sink (damping N : Q) (current : page -> Q) (pg key : page) (a : Q) :
  pr_step damping N current pg a (key, []) = a + damping * current key / N.
Proof. reflexivity. Qed.

Lemma pr_step_link (damping N : Q) (current : page -> Q) (pg key : page) (a : Q)
      (l : page) (ls : list page) :
  mem pg (l :: ls) = true ->
  pr_step damping N current pg a (key, l :: ls)
  = a + damping * current key / len (l :: ls).
Proof. intros H. unfold pr_step. now rewrite H. Qed.

Lemma pr_step_skip (damping N : Q) (current : page -> Q) (pg key : page) (a : Q)
      (l : page) (ls : list page) :
  mem pg (l :: ls) = false ->
  pr_step damping N current pg a (key, l :: ls) = a.
Proof. intros H. unfold pr_step. now rewrite H. Qed.

Lemma fold_left_cons {A B : Type} (F : A -> B -> A) (x : B) (xs : list B) (a : A) :
  fold_left F (x :: xs) a = fold_left F xs (F a x).
Proof. reflexivity. Qed.

(** The inner loop of [calculate_pr] changes the entry of [pg] only. *)
Lemma calculate_pr_inner (items : corpus_t) (damping N : Q) (current : dict Q)
      (ks : list page) (pg : page) (f : page -> Q) :
  incl (keys items) (keys current) -> NoDup ks -> In pg ks -> ~ N == 0 ->
  for_each items
    (fun new '(key, links) =>
       new <- match links with
              | [] =>
                  c <- dict_get current key ;;
                  q <- pydiv (damping * c) N ;;
                  dict_incr new pg q
              | _ => Ok new
              end ;;
       if mem pg links then
         c <- dict_get current key ;;
         q <- pydiv (damping * c) (len links) ;;
         dict_incr new pg q
       else Ok new)
    (tabulate ks f)
  = Ok (tabulate ks
          (upd f pg (fold_left (pr_step damping N (value_at current) pg) items (f pg)))).
Proof.
  intros Hcur Hnd Hpg HN. revert f Hcur.
  induction items as [|[key links] items IH]; intros f Hcur.
  - simpl. f_equal. apply tabulate_ext. intros x _. unfold upd.
    destruct (String.eqb_spec x pg) as [->|_]; reflexivity.
  - assert (Hkey : dict_get current key = Ok (value_at current key))
      by (apply dict_get_value_at, Hcur; now left).
    assert (Hrest : incl (keys items) (keys current))
      by (intros x Hx; apply Hcur; now right).
    loop_step. cbv iota. rewrite fold_left_cons. destruct links as [|l links'].
    + rewrite Hkey, bind_Ok, pydiv_ok, bind_Ok by assumption.
      rewrite incr_tabulate by assumption. rewrite bind_Ok.
      change (mem pg []) with false. cbv iota.
      rewrite bind_Ok, IH, pr_step_sink by assumption.
      f_equal. apply tabulate_ext. intros x _.
      rewrite upd_upd, upd_at. reflexivity.
    + rewrite bind_Ok. destruct (mem pg (l :: links')) eqn:Hm.
      * rewrite Hkey, bind_Ok, pydiv_len, bind_Ok by discriminate.
        rewrite incr_tabulate by assumption.
        rewrite bind_Ok, IH, pr_step_link by assumption.
        f_equal. apply tabulate_ext. intros x _.
        rewrite upd_upd, upd_at. reflexivity.
      * now rewrite bind_Ok, IH, pr_step_skip.
Qed.

(** The outer loop of [calculate_pr] runs the inner loop at each page. *)
Lemma calculate_pr_outer (corpus : corpus_t) (damping N : Q) (current : dict Q)
      (ks pgs : list page) (f : page -> Q) :
  incl (keys corpus) (keys current) -> NoDup ks -> NoDup pgs -> incl pgs ks ->
  ~ N == 0 ->
  for_each pgs
    (fun new pg =>
       for_each corpus
         (fun new '(key, links) =>
            new <- match links with
                   | [] =>
                       c <- dict_get current key ;;
                       q <- pydiv (damping * c) N ;;
                       dict_incr new pg q
                   | _ => Ok new
                   end ;;
            if mem pg links then
              c <- dict_get current key ;;
              q <- pydiv (damping * c) (len links) ;;
              dict_incr new pg q
            else Ok new)
         new)
    (tabulate ks f)
  = Ok (tabulate ks
          (fun k => if mem k pgs
                    then fold_left (pr_step damping N (value_at current) k) corpus (f k)
                    else f k)).
Proof.
  intros Hcur Hnd Hpgs Hincl HN. revert f Hincl.
  induction Hpgs as [|pg pgs Hpg Hpgs IH]; intros f Hincl; [reflexivity|].
  loop_step. rewrite calculate_pr_inner by (auto with datatypes).
  rewrite bind_Ok, IH by (intros x Hx; apply Hincl; now right).
  f_equal. apply tabulate_ext. intros x _.
  change (mem x (pg :: pgs)) with (String.eqb x pg || mem x pgs)%bool.
  unfold upd. destruct (String.eqb_spec x pg) as [->|_]; simpl.
  - apply mem_not_In in Hpg. rewrite Hpg. reflexivity.
  - reflexivity.
Qed.

(** [calculate_pr] returns the table of the entries its loops compute. *)
Lemma calculate_pr_table (corpus : corpus_t) (damping N : Q) (current : dict Q) :
  NoDup (keys corpus) -> incl (keys corpus) (keys current) -> ~ N == 0 ->
  calculate_pr corpus damping current N
  = Ok (tabulate (keys corpus) (pr_entry corpus damping N (value_at current))).
Proof.
  intros Hnd Hcur HN. unfold calculate_pr.
  rewrite (dict_of_keys_tabulate _ _ (fun _ => (1 - damping) / N))
    by (auto using pydiv_ok).
  rewrite bind_Ok, calculate_pr_outer; auto using incl_refl.
  f_equal. apply tabulate_ext. intros k Hk. apply mem_In in Hk. now rewrite Hk.
Qed.

Lemma covers_incl (current : dict Q) (corpus : corpus_t) :
  covers current corpus = true -> incl (keys corpus) (keys current).
Proof.
  unfold covers. rewrite forallb_forall. intros H k Hk. now apply mem_In, H.
Qed.

Lemma Qsum_map_ext {A : Type} (l : list A) (f g : A -> Q) :
  (forall x, In x l -> f x == g x) -> Qsum (map f l) == Qsum (map g l).
Proof.
  induction l as [|a l IH]; intros H; [reflexivity|].
  simpl. rewrite (H a), IH; [reflexivity | | now left].
  intros x Hx. apply H. now right.
Qed.

(** The entry the loops compute is the base value plus the damped sum of
    the contributions of the items. *)
Lemma pr_step_fold (items : corpus_t) (damping N : Q) (current : page -> Q)
      (pg : page) (a : Q) :
  fold_left (pr_step damping N current pg) items a
  == a + damping * Qsum (map (item_contribution N current pg) items).
Proof.
  revert a. induction items as [|[key links] items IH]; intros a.
  - simpl. lra.
  - rewrite fold_left_cons, IH. simpl map. simpl Qsum.
    set (rest := Qsum (map (item_contribution N current pg) items)).
    destruct links as [|l ls].
    + rewrite pr_step_sink.
      change (item_contribution N current pg (key, [])) with (current key / N).
      unfold Qdiv. ring.
    + change (item_contribution N current pg (key, l :: ls))
        with (if mem pg (l :: ls) then current key / len (l :: ls) else 0).
      destruct (mem pg (l :: ls)) eqn:Hm.
      * rewrite pr_step_link by assumption. unfold Qdiv. ring.
      * rewrite pr_step_skip by assumption. ring.
Qed.

Lemma links_of_item (corpus : corpus_t) (k : page) (links : list page) :
  NoDup (keys corpus) -> In (k, links) corpus -> links_of corpus k = links.
Proof.
  intros Hnd Hin. unfold links_of. now rewrite (dict_get_of_In _ _ _ Hnd Hin).
Qed.

Lemma item_contribution_sum (corpus : corpus_t) (current : page -> Q) (pg : page) :
  NoDup (keys corpus) ->
  Qsum (map (item_contribution (len corpus) current pg) corpus)
  == sum_over (keys corpus) (fun k => contribution corpus current k pg).
Proof.
  intros Hnd. unfold sum_over, keys. rewrite map_map.
  apply Qsum_map_ext. intros [k links] Hin. simpl.
  unfold contribution. rewrite (links_of_item _ _ _ Hnd Hin).
  destruct links; reflexivity.
Qed.

Lemma pr_entry_relaxation (corpus : corpus_t) (damping : Q) (current : page -> Q)
      (pg : page) :
  NoDup (keys corpus) ->
  pr_entry corpus damping (len corpus) current pg
  == relaxation corpus damping current pg.
Proof.
  intros Hnd. unfold pr_entry, relaxation.
  now rewrite pr_step_fold, item_contribution_sum.
Qed.

(** C2. One relaxation: on a corpus with at least one page and a current
    vector with an entry for each page, [calculate_pr] called with the
    number of pages returns a vector over the pages of the corpus whose
    entry at each page is [(1 - damping)/N] plus [damping] times the sum
    of the contributions of all pages. *)
Theorem calculate_pr_relaxation (corpus : corpus_t) (damping : Q) (current : dict Q) :
  distinct (keys corpus) = true ->
  corpus <> [] ->
  covers current corpus = true ->
  exists new,
    calculate_pr corpus damping current (len corpus) = Ok new
    /\ keys new = keys corpus
    /\ forall pg, In pg (keys corpus) ->
         exists v, dict_get new pg = Ok v
                   /\ v == relaxation corpus damping (value_at current) pg.
Proof.
  intros Hnd Hne Hcov. apply distinct_NoDup in Hnd. apply covers_incl in Hcov.
  eexists. split; [apply calculate_pr_table; auto using len_nonzero|].
  split; [apply keys_tabulate|].
  intros pg Hpg. eexists. split; [now apply get_tabulate|].
  now apply pr_entry_relaxation.
Qed.

(** ** The relaxation keeps the total mass *)

Lemma len_keys {V : Type} (d : dict V) : len (keys d) = len d.
Proof. unfold len, keys. now rewrite length_map. Qed.

Lemma links_of_graph (corpus : corpus_t) (k : page) :
  link_graph corpus = true ->
  NoDup (links_of corpus k) /\ incl (links_of corpus k) (keys corpus).
Proof.
  intros Hwf. unfold links_of. destruct (dict_get corpus k) as [links| |] eqn:E.
  - apply dict_get_In in E. now apply (link_graph_links corpus k).
  - split; [constructor | intros x []].
  - split; [constructor | intros x []].
Qed.

(** What a page gives away in one relaxation is what it has. *)
Lemma contribution_column (corpus : corpus_t) (current : page -> Q) (k : page) :
  link_graph corpus = true -> corpus <> [] ->
  sum_over (keys corpus) (fun pg => contribution corpus current k pg) == current k.
Proof.
  intros Hwf Hne. pose proof (link_graph_keys _ Hwf) as Hnd.
  destruct (links_of_graph corpus k Hwf) as [Hls Hincl].
  pose proof (len_nonzero _ Hne) as HN.
  unfold contribution. destruct (links_of corpus k) as [|l ls] eqn:E.
  - rewrite sum_over_const, len_keys. now field.
  - rewrite sum_over_mem by assumption. field.
    apply len_nonzero. discriminate.
Qed.

Lemma relaxation_sum (corpus : corpus_t) (damping : Q) (current : page -> Q) :
  link_graph corpus = true -> corpus <> [] ->
  sum_over (keys corpus) (relaxation corpus damping current)
  == (1 - damping) + damping * sum_over (keys corpus) current.
Proof.
  intros Hwf Hne. pose proof (len_nonzero _ Hne) as HN.
  unfold relaxation.
  rewrite sum_over_plus, sum_over_const, sum_over_scale, sum_over_swap, len_keys.
  rewrite (sum_over_ext _ _ current)
    by (intros k _; now apply contribution_column).
  now field.
Qed.

Lemma sum_values (d : dict Q) :
  NoDup (keys d) -> Qsum (values d) = sum_over (keys d) (value_at d).
Proof.
  intros Hnd. rewrite (dict_tabulate d Hnd) at 1. apply values_tabulate.
Qed.

(** [calculate_pr] on a link graph: the vector it returns, and its sum. *)
Lemma calculate_pr_sum (corpus : corpus_t) (damping : Q) (current : dict Q) :
  link_graph corpus = true -> corpus <> [] -> keys current = keys corpus ->
  exists new,
    calculate_pr corpus damping current (len corpus) = Ok new
    /\ keys new = keys corpus
    /\ Qsum (values new) == (1 - damping) + damping * Qsum (values current).
Proof.
  intros Hwf Hne Hk. pose proof (link_graph_keys _ Hwf) as Hnd.
  eexists. split; [|split].
  - apply calculate_pr_table; [assumption| |now apply len_nonzero].
    rewrite Hk. apply incl_refl.
  - apply keys_tabulate.
  - rewrite values_tabulate, sum_values, Hk by (now rewrite Hk).
    rewrite <- relaxation_sum by assumption.
    apply sum_over_ext. intros k _. now apply pr_entry_relaxation.
Qed.

Lemma initial_ranks_table (corpus : corpus_t) :
  NoDup (keys corpus) -> corpus <> [] ->
  initial_ranks corpus = Ok (tabulate (keys corpus) (fun _ => 1 / len corpus)).
Proof.
  intros Hnd Hne. unfold initial_ranks. apply dict_of_keys_tabulate; [assumption|].
  intros k _. now apply pydiv_len.
Qed.

(** Every vector of the iteration is over the pages of the corpus and has
    total mass [1]. *)
Lemma relax_n_sum (corpus : corpus_t) (damping : Q) (t : nat) :
  link_graph corpus = true -> corpus <> [] ->
  exists v,
    relax_n corpus damping t = Ok v
    /\ keys v = keys corpus
    /\ Qsum (values v) == 1.
Proof.
  intros Hwf Hne. pose proof (link_graph_keys _ Hwf) as Hnd.
  induction t as [|t [v [Hv [Hk Hs]]]].
  - simpl. rewrite initial_ranks_table by assumption.
    eexists. split; [reflexivity|]. split; [apply keys_tabulate|].
    rewrite values_tabulate, sum_over_const, len_keys.
    field. now apply len_nonzero.
  - simpl. rewrite Hv, bind_Ok.
    destruct (calculate_pr_sum corpus damping v Hwf Hne Hk) as [new [Hn [Hkn Hsn]]].
    exists new. repeat split; try assumption. rewrite Hsn, Hs. ring.
Qed.

(** ** The random source *)

Lemma choice_index_lt {A : Type} (r : Q) (seq : list A) :
  0 <= r < 1 -> seq <> [] -> (choice_index r seq < List.length seq)%nat.
Proof.
  intros [H0 H1] Hne. unfold choice_index.
  pose proof (len_pos seq Hne) as Hlen.
  assert (Hlt : r * len seq < len seq).
  { rewrite <- (Qmult_1_l (len seq)) at 2. now apply Qmult_lt_compat_r. }
  pose proof (Qfloor_le (r * len seq)) as Hfl.
  assert (Hz : (Qfloor (r * len seq) < Z.of_nat (List.length seq))%Z).
  { rewrite Zlt_Qlt. fold (len seq).
    eapply Qle_lt_trans; [apply Hfl | assumption]. }
  destruct seq as [|a seq]; [congruence|]. simpl List.length in *. lia.
Qed.

Lemma choice_ok {A : Type} (u : nat -> Q) (seq : list A) (pos : nat) :
  tape_ok u -> seq <> [] ->
  exists a, nth_error seq (choice_index (u pos) seq) = Some a
            /\ choice u seq pos = Ok (a, S pos).
Proof.
  intros Hu Hne.
  destruct (nth_error seq (choice_index (u pos) seq)) as [a|] eqn:E.
  - exists a. split; [reflexivity|].
    destruct seq as [|x seq]; [congruence|].
    unfold choice, bindR, random. now rewrite E.
  - apply nth_error_None in E.
    pose proof (choice_index_lt (u pos) seq (Hu pos) Hne). lia.
Qed.

Lemma choice_pos {A : Type} (u : nat -> Q) (seq : list A) (pos pos' : nat) (a : A) :
  choice u seq pos = Ok (a, pos') ->
  pos' = S pos /\ nth_error seq (choice_index (u pos) seq) = Some a.
Proof.
  destruct seq as [|x seq]; [discriminate|].
  unfold choice, bindR, random.
  destruct (nth_error (x :: seq) _) as [b|]; [|discriminate].
  unfold ret. intros [= -> <-]. now split.
Qed.

(** ** [has_not_converged] *)

(** The flag [has_not_converged] computes from the page [i] it drew. *)
Lemma has_not_converged_at (u : nat -> Q) (previous current : dict Q)
      (pos : nat) (i : page) :
  choice u (keys previous) pos = Ok (i, S pos) ->
  In i (keys previous) -> In i (keys current) ->
  has_not_converged u previous current pos
  = Ok (if Qlt_le_dec TOLERANCE (Qabs (value_at current i - value_at previous i))
        then true else false, S pos).
Proof.
  intros Hc Hp Hcur. unfold has_not_converged, bindR at 1. rewrite Hc.
  unfold bindR, lift, ret.
  now rewrite (dict_get_value_at current i Hcur), (dict_get_value_at previous i Hp).
Qed.

Lemma has_not_converged_pos (u : nat -> Q) (previous current : dict Q)
      (pos pos' : nat) (b : bool) :
  has_not_converged u previous current pos = Ok (b, pos') -> pos' = S pos.
Proof.
  unfold has_not_converged, bindR at 1.
  destruct (choice u (keys previous) pos) as [[i p]| |] eqn:E; try discriminate.
  apply choice_pos in E. destruct E as [-> _].
  unfold bindR, lift, ret.
  destruct (dict_get current i); try discriminate.
  destruct (dict_get previous i); try discriminate.
  now intros [= _ <-].
Qed.

Lemma exceeds_wd (t x y : Q) :
  x == y ->
  (if Qlt_le_dec t x then true else false) = (if Qlt_le_dec t y then true else false).
Proof.
  intros E. destruct (Qlt_le_dec t x) as [H|H], (Qlt_le_dec t y) as [H'|H'];
    try reflexivity; rewrite E in H; exfalso; lra.
Qed.

(** C4. One call of the convergence test reads the random source once,
    to draw one page [i] among the keys of [previous]; it reports
    convergence (the flag [false]) exactly when the entries of the two
    vectors at [i] differ by at most [TOLERANCE = 1/1000]; the entries at
    the other pages have no part in the answer. *)
Theorem has_not_converged_single_page (u : nat -> Q) (previous current : dict Q)
        (pos : nat) :
  tape_ok u ->
  previous <> [] ->
  incl (keys previous) (keys current) ->
  exists i b,
    nth_error (keys previous) (choice_index (u pos) (keys previous)) = Some i
    /\ has_not_converged u previous current pos = Ok (b, S pos)
    /\ (b = false <->
        Qabs (value_at current i - value_at previous i) <= 1 # 1000)
    /\ forall previous' current',
         keys previous' = keys previous ->
         In i (keys current') ->
         value_at previous' i == value_at previous i ->
         value_at current' i == value_at current i ->
         has_not_converged u previous' current' pos = Ok (b, S pos).
Proof.
  intros Hu Hne Hincl.
  assert (Hk : keys previous <> []) by (destruct previous; [congruence | discriminate]).
  destruct (choice_ok u (keys previous) pos Hu Hk) as [i [Hnth Hc]].
  pose proof (nth_error_In _ _ Hnth) as Hi.
  exists i. eexists. split; [exact Hnth|]. split; [|split].
  - apply has_not_converged_at; [exact Hc | exact Hi | apply Hincl, Hi].
  - change (1 # 1000) with TOLERANCE.
    destruct (Qlt_le_dec TOLERANCE _) as [H|H]; split; intros H'.
    + discriminate.
    + exfalso. lra.
    + exact H.
    + reflexivity.
  - intros previous' current' Hk' Hi' Hp Hcur.
    rewrite (has_not_converged_at u previous' current' pos i).
    + f_equal. f_equal. apply exceeds_wd. now rewrite Hp, Hcur.
    + now rewrite Hk'.
    + now rewrite Hk'.
    + assumption.
Qed.

(** ** [iterate_pagerank]: what it returns *)

(** The loop returns a vector of the iteration, and has read the random
    source once per convergence test. *)
Lemma iterate_loop_result (u : nat -> Q) (corpus : corpus_t) (damping : Q)
      (fuel t : nat) (x y : dict Q) (pos : nat) (v : dict Q) (pos' : nat) :
  relax_n corpus damping (S t) = Ok y ->
  iterate_loop u fuel corpus damping (len corpus) x y pos = Ok (v, pos') ->
  exists j, relax_n corpus damping (S t + j) = Ok v /\ pos' = (pos + S j)%nat.
Proof.
  revert t x y pos. induction fuel as [|fuel IH]; intros t x y pos Hy; [discriminate|].
  simpl iterate_loop. unfold bindR at 1.
  destruct (has_not_converged u x y pos) as [[b p1]| |] eqn:Hb; try discriminate.
  apply has_not_converged_pos in Hb. subst p1. destruct b.
  - unfold bindR, lift.
    destruct (calculate_pr corpus damping y (len corpus)) as [y'| |] eqn:Hy';
      try discriminate.
    intros Hloop. apply (IH (S t)) in Hloop.
    + destruct Hloop as [j [Hj ->]]. exists (S j). split; [|lia].
      now replace (S t + S j)%nat with (S (S t) + j)%nat by lia.
    + change (relax_n corpus damping (S (S t)))
        with (v0 <- relax_n corpus damping (S t) ;;
              calculate_pr corpus damping v0 (len corpus)).
      now rewrite Hy.
  - unfold ret. intros [= <- <-]. exists 0%nat. split; [|lia].
    now rewrite Nat.add_0_r.
Qed.

Lemma iterate_pagerank_relax_n (u : nat -> Q) (fuel : nat) (corpus : corpus_t)
      (damping : Q) (pos : nat) (v : dict Q) (pos' : nat) :
  iterate_pagerank u fuel corpus damping pos = Ok (v, pos') ->
  exists j, relax_n corpus damping (S j) = Ok v /\ pos' = (pos + S j)%nat.
Proof.
  unfold iterate_pagerank, bindR at 1, lift at 1.
  destruct (pydiv (1 - damping) (len corpus)); try discriminate.
  unfold bindR at 1, lift at 1. fold (initial_ranks corpus).
  destruct (initial_ranks corpus) as [x| |] eqn:Hx; try discriminate.
  unfold bindR at 1, lift at 1.
  destruct (calculate_pr corpus damping x (len corpus)) as [y| |] eqn:Hy;
    try discriminate.
  intros Hloop. apply (iterate_loop_result u corpus damping fuel 0 x y) in Hloop.
  - exact Hloop.
  - simpl. now rewrite Hx.
Qed.

(** C5 (amended). The vector [iterate_pagerank] returns is the vector
    after [k >= 1] relaxations of the uniform vector, [k] being the
    number of convergence tests made, each of which reads the random
    source once: the graph, the damping factor and [k] fix the result,
    and the pages drawn by the tests fix [k]. *)
Theorem iterate_pagerank_result (u : nat -> Q) (fuel : nat) (corpus : corpus_t)
        (damping : Q) (pos : nat) (v : dict Q) (pos' : nat) :
  iterate_pagerank u fuel corpus damping pos = Ok (v, pos') ->
  exists k, relax_n corpus damping (S k) = Ok v /\ pos' = (pos + S k)%nat.
Proof. apply iterate_pagerank_relax_n. Qed.

(** C10. On a link graph with at least one page, [calculate_pr] maps a
    vector with one entry per page and sum [1] to such a vector; so every
    vector of the iteration has sum [1], and so has the vector
    [iterate_pagerank] returns. *)
Theorem calculate_pr_keeps_mass (corpus : corpus_t) (damping : Q) (current : dict Q) :
  link_graph corpus = true ->
  corpus <> [] ->
  keys current = keys corpus ->
  Qsum (values current) == 1 ->
  (exists new,
      calculate_pr corpus damping current (len corpus) = Ok new
      /\ keys new = keys corpus
      /\ Qsum (values new) == 1)
  /\ (forall t, exists v,
         relax_n corpus damping t = Ok v /\ keys v = keys corpus
         /\ Qsum (values v) == 1)
  /\ (forall u fuel pos v pos',
         iterate_pagerank u fuel corpus damping pos = Ok (v, pos') ->
         keys v = keys corpus /\ Qsum (values v) == 1).
Proof.
  intros Hwf Hne Hk Hs. split; [|split].
  - destruct (calculate_pr_sum corpus damping current Hwf Hne Hk) as [new [Hn [Hkn Hsn]]].
    exists new. repeat split; try assumption. rewrite Hsn, Hs. ring.
  - intros t. now apply relax_n_sum.
  - intros u fuel pos v pos' Hrun.
    apply iterate_pagerank_relax_n in Hrun. destruct Hrun as [j [Hj _]].
    destruct (relax_n_sum corpus damping (S j) Hwf Hne) as [w [Hw [Hkw Hsw]]].
    rewrite Hj in Hw. injection Hw as <-. now split.
Qed.

(** ** The relaxation brings vectors closer *)

Lemma Qabs_div (a b : Q) : 0 <= b -> Qabs (a / b) == Qabs a / b.
Proof.
  intros Hb. unfold Qdiv. rewrite Qabs_Qmult.
  rewrite (Qabs_pos (/ b)) by (now apply Qinv_le_0_compat). reflexivity.
Qed.

Lemma Qmult_le_nonneg_l (c a b : Q) : 0 <= c -> a <= b -> c * a <= c * b.
Proof.
  intros Hc Hab. rewrite (Qmult_comm c a), (Qmult_comm c b).
  now apply Qmult_le_compat_r.
Qed.

Lemma contribution_abs (corpus : corpus_t) (x y : page -> Q) (k pg : page) :
  Qabs (contribution corpus x k pg - contribution corpus y k pg)
  == contribution corpus (fun j => Qabs (x j - y j)) k pg.
Proof.
  unfold contribution. destruct (links_of corpus k) as [|l ls].
  - rewrite <- Qabs_div by apply len_nonneg.
    apply Qabs_wd. unfold Qdiv. ring.
  - destruct (mem pg (l :: ls)).
    + rewrite <- Qabs_div by apply len_nonneg.
      apply Qabs_wd. unfold Qdiv. ring.
    + reflexivity.
Qed.

Lemma sum_over_minus (ks : list page) (f g : page -> Q) :
  sum_over ks f - sum_over ks g == sum_over ks (fun k => f k - g k).
Proof.
  induction ks as [|k ks IH]; [unfold sum_over; simpl; lra|].
  rewrite !sum_over_cons, <- IH. ring.
Qed.

Lemma relaxation_abs (corpus : corpus_t) (damping : Q) (x y : page -> Q) (pg : page) :
  0 <= damping ->
  Qabs (relaxation corpus damping x pg - relaxation corpus damping y pg)
  <= damping * sum_over (keys corpus)
                 (fun k => contribution corpus (fun j => Qabs (x j - y j)) k pg).
Proof.
  intros Hd. unfold relaxation.
  setoid_replace
    ((1 - damping) / len corpus
     + damping * sum_over (keys corpus) (fun k => contribution corpus x k pg)
     - ((1 - damping) / len corpus
        + damping * sum_over (keys corpus) (fun k => contribution corpus y k pg)))
    with (damping
          * sum_over (keys corpus)
              (fun k => contribution corpus x k pg - contribution corpus y k pg))
    by (rewrite <- sum_over_minus; ring).
  rewrite Qabs_Qmult, (Qabs_pos damping) by assumption.
  apply Qmult_le_nonneg_l; [assumption|].
  eapply Qle_trans; [apply sum_over_abs|].
  apply Qle_lteq. right. apply sum_over_ext. intros k _. apply contribution_abs.
Qed.

(** One relaxation multiplies the distance of two vectors by at most the
    damping factor. *)
Lemma relaxation_contracts (corpus : corpus_t) (damping : Q) (x y : page -> Q) :
  link_graph corpus = true -> corpus <> [] -> 0 <= damping ->
  distance (keys corpus) (relaxation corpus damping x) (relaxation corpus damping y)
  <= damping * distance (keys corpus) x y.
Proof.
  intros Hwf Hne Hd. unfold distance.
  eapply Qle_trans.
  - apply sum_over_le. intros pg _. now apply relaxation_abs.
  - rewrite sum_over_scale, sum_over_swap.
    apply Qmult_le_nonneg_l; [assumption|].
    apply Qle_lteq. right. apply sum_over_ext. intros k _.
    now apply contribution_column.
Qed.

Lemma distance_ext (ks : list page) (x x' y y' : page -> Q) :
  (forall k, In k ks -> x k == x' k) -> (forall k, In k ks -> y k == y' k) ->
  distance ks x y == distance ks x' y'.
Proof.
  intros Hx Hy. apply sum_over_ext. intros k Hk.
  apply Qabs_wd. now rewrite Hx, Hy.
Qed.

Lemma distance_nonneg (ks : list page) (x y : page -> Q) : 0 <= distance ks x y.
Proof. apply sum_over_nonneg. intros k _. apply Qabs_nonneg. Qed.

Lemma sum_over_term (ks : list page) (f : page -> Q) (k : page) :
  (forall j, In j ks -> 0 <= f j) -> In k ks -> f k <= sum_over ks f.
Proof.
  induction ks as [|j ks IH]; [contradiction|].
  intros Hf Hin. rewrite sum_over_cons.
  assert (H0 : 0 <= f j) by (apply Hf; now left).
  assert (H1 : 0 <= sum_over ks f)
    by (apply sum_over_nonneg; intros i Hi; apply Hf; now right).
  destruct Hin as [->|Hin]; [lra|].
  assert (f k <= sum_over ks f)
    by (apply IH; [intros i Hi; apply Hf; now right | assumption]).
  lra.
Qed.

Lemma distance_entry (ks : list page) (x y : page -> Q) (k : page) :
  In k ks -> Qabs (x k - y k) <= distance ks x y.
Proof.
  intros Hk. unfold distance.
  apply (sum_over_term ks (fun j => Qabs (x j - y j)) k); [|assumption].
  intros j _. apply Qabs_nonneg.
Qed.

Lemma calculate_pr_values (corpus : corpus_t) (damping : Q) (current : dict Q) :
  NoDup (keys corpus) -> corpus <> [] -> keys current = keys corpus ->
  exists new,
    calculate_pr corpus damping current (len corpus) = Ok new
    /\ keys new = keys corpus
    /\ forall k, In k (keys corpus) ->
         value_at new k == relaxation corpus damping (value_at current) k.
Proof.
  intros Hnd Hne Hk. eexists. split; [|split].
  - apply calculate_pr_table; [assumption| |now apply len_nonzero].
    rewrite Hk. apply incl_refl.
  - apply keys_tabulate.
  - intros k Hin. rewrite value_at_tabulate by assumption.
    now apply pr_entry_relaxation.
Qed.

(** Two relaxations in a row: the second moves the vector at most
    [damping] times as far as the first. *)
Lemma calculate_pr_distance (corpus : corpus_t) (damping : Q)
      (previous current new : dict Q) :
  link_graph corpus = true -> corpus <> [] -> 0 <= damping ->
  keys previous = keys corpus ->
  calculate_pr corpus damping previous (len corpus) = Ok current ->
  calculate_pr corpus damping current (len corpus) = Ok new ->
  distance (keys corpus) (value_at new) (value_at current)
  <= damping * distance (keys corpus) (value_at current) (value_at previous).
Proof.
  intros Hwf Hne Hd Hk Hcur Hnew. pose proof (link_graph_keys _ Hwf) as Hnd.
  destruct (calculate_pr_values corpus damping previous Hnd Hne Hk)
    as [c [Hc [Hkc Hvc]]].
  rewrite Hcur in Hc. injection Hc as <-.
  destruct (calculate_pr_values corpus damping current Hnd Hne Hkc)
    as [n [Hn [Hkn Hvn]]].
  rewrite Hnew in Hn. injection Hn as <-.
  rewrite (distance_ext _ _ (relaxation corpus damping (value_at current))
             _ (relaxation corpus damping (value_at previous)))
    by assumption.
  now apply relaxation_contracts.
Qed.

(** C9 (amended). On a link graph with a damping factor of [[0, 1]], let
    [current] be the relaxation of a vector [previous] over the pages of
    the corpus, the absolute differences between the two summing, over
    all pages, to at most [TOLERANCE = 1/1000]. Then one more relaxation
    returns a vector whose every entry is within [TOLERANCE] of the entry
    of [current]. *)
Theorem calculate_pr_near_fixed_point (corpus : corpus_t) (damping : Q)
        (previous current : dict Q) :
  link_graph corpus = true ->
  corpus <> [] ->
  0 <= damping <= 1 ->
  keys previous = keys corpus ->
  calculate_pr corpus damping previous (len corpus) = Ok current ->
  distance (keys corpus) (value_at current) (value_at previous) <= 1 # 1000 ->
  exists new,
    calculate_pr corpus damping current (len corpus) = Ok new
    /\ keys new = keys corpus
    /\ forall k, In k (keys corpus) ->
         Qabs (value_at new k - value_at current k) <= 1 # 1000.
Proof.
  intros Hwf Hne [Hd0 Hd1] Hk Hcur Hdist.
  pose proof (link_graph_keys _ Hwf) as Hnd.
  destruct (calculate_pr_values corpus damping previous Hnd Hne Hk)
    as [c [Hc [Hkc _]]].
  rewrite Hcur in Hc. injection Hc as <-.
  destruct (calculate_pr_values corpus damping current Hnd Hne Hkc)
    as [new [Hnew [Hkn _]]].
  exists new. split; [assumption|]. split; [assumption|].
  intros k Hin.
  pose proof (calculate_pr_distance corpus damping previous current new
                Hwf Hne Hd0 Hk Hcur Hnew) as Hstep.
  pose proof (distance_entry (keys corpus) (value_at new) (value_at current) k Hin)
    as Hentry.
  pose proof (distance_nonneg (keys corpus) (value_at current) (value_at previous))
    as Hpos.
  assert (damping * distance (keys corpus) (value_at current) (value_at previous)
          <= 1 * distance (keys corpus) (value_at current) (value_at previous))
    by (now apply Qmult_le_compat_r).
  lra.
Qed.

(** ** [iterate_pagerank]: termination below damping [1] *)

Lemma iterate_vec_ok (corpus : corpus_t) (damping : Q) (t : nat) :
  link_graph corpus = true -> corpus <> [] ->
  relax_n corpus damping t = Ok (iterate_vec corpus damping t)
  /\ keys (iterate_vec corpus damping t) = keys corpus.
Proof.
  intros Hwf Hne.
  destruct (relax_n_sum corpus damping t Hwf Hne) as [v [Hv [Hk _]]].
  unfold iterate_vec. rewrite Hv. now split.
Qed.

Lemma iterate_vec_step (corpus : corpus_t) (damping : Q) (t : nat) :
  link_graph corpus = true -> corpus <> [] ->
  calculate_pr corpus damping (iterate_vec corpus damping t) (len corpus)
  = Ok (iterate_vec corpus damping (S t)).
Proof.
  intros Hwf Hne.
  destruct (iterate_vec_ok corpus damping (S t) Hwf Hne) as [H _].
  destruct (iterate_vec_ok corpus damping t Hwf Hne) as [H' _].
  simpl relax_n in H. now rewrite H', bind_Ok in H.
Qed.

Lemma iterate_gap_step (corpus : corpus_t) (damping : Q) (t : nat) :
  link_graph corpus = true -> corpus <> [] -> 0 <= damping ->
  iterate_gap corpus damping (S t) <= damping * iterate_gap corpus damping t.
Proof.
  intros Hwf Hne Hd. unfold iterate_gap.
  apply calculate_pr_distance; try assumption.
  - now apply iterate_vec_ok.
  - now apply iterate_vec_step.
  - now apply iterate_vec_step.
Qed.

(** A sequence that shrinks by the factor [d <= 1] at each step falls
    like [1 / (1 + t * (1 - d))]. *)
Lemma shrinking_sequence (a : nat -> Q) (d : Q) :
  0 <= d <= 1 ->
  (forall t, 0 <= a t) ->
  (forall t, a (S t) <= d * a t) ->
  forall t, a t <= a 0%nat
            /\ a t * (1 + inject_Z (Z.of_nat t) * (1 - d)) <= a 0%nat.
Proof.
  intros [Hd0 Hd1] Hpos Hstep. induction t as [|t [IH1 IH2]].
  - split; [apply Qle_refl|]. change (inject_Z (Z.of_nat 0)) with 0.
    apply Qle_lteq. right. ring.
  - rewrite Nat2Z.inj_succ, <- Z.add_1_l, inject_Z_plus.
    set (n := inject_Z (Z.of_nat t)) in *.
    assert (Hn : 0 <= n).
    { unfold n. change 0 with (inject_Z 0). rewrite <- Zle_Qle. lia. }
    pose proof (Hpos t) as HA. pose proof (Hpos (S t)) as HB.
    pose proof (Hpos 0%nat) as HD. pose proof (Hstep t) as HS.
    set (A := a t) in *. set (B := a (S t)) in *. set (D := a 0%nat) in *.
    assert (HdA : d * A <= A) by nra.
    split; [lra|].
    change (inject_Z 1) with 1.
    assert (Hc : 0 <= 1 + (1 + n) * (1 - d)) by nra.
    assert (H1 : B * (1 + (1 + n) * (1 - d)) <= d * A * (1 + (1 + n) * (1 - d))) by nra.
    assert (H2 : d * (A * (1 + n * (1 - d))) <= d * D) by nra.
    assert (Hde : 0 <= d * (1 - d)) by nra.
    assert (H3 : d * (1 - d) * A <= d * (1 - d) * D)
      by (apply Qmult_le_nonneg_l; assumption).
    assert (Hsq : 0 <= (1 - d) * (1 - d)) by nra.
    assert (H4 : 0 <= (1 - d) * (1 - d) * D)
      by (apply Qmult_le_0_compat; assumption).
    lra.
Qed.

Lemma iterate_gap_small (corpus : corpus_t) (damping : Q) :
  link_graph corpus = true -> corpus <> [] -> 0 <= damping < 1 ->
  exists T, forall t, (T <= t)%nat -> iterate_gap corpus damping t <= TOLERANCE.
Proof.
  intros Hwf Hne [Hd0 Hd1].
  set (a := iterate_gap corpus damping).
  assert (Hpos : forall t, 0 <= a t) by (intros t; apply distance_nonneg).
  assert (Hstep : forall t, a (S t) <= damping * a t)
    by (intros t; now apply iterate_gap_step).
  assert (Hd : 0 <= damping <= 1) by lra.
  pose proof (shrinking_sequence a damping Hd Hpos Hstep) as Hdecay.
  set (q := 1000 * a 0%nat / (1 - damping)).
  exists (Z.to_nat (Qceiling q)). intros t Ht.
  destruct (Hdecay t) as [_ H].
  assert (Hq : q <= inject_Z (Z.of_nat t)).
  { eapply Qle_trans; [apply Qle_ceiling|]. rewrite <- Zle_Qle. lia. }
  assert (Hq' : 1000 * a 0%nat <= inject_Z (Z.of_nat t) * (1 - damping)).
  { assert (E : 1000 * a 0%nat == q * (1 - damping)) by (unfold q; field; lra).
    rewrite E. apply Qmult_le_compat_r; lra. }
  pose proof (Hpos t) as HA. pose proof (Hpos 0%nat) as HD.
  unfold TOLERANCE. fold (a t).
  set (n := inject_Z (Z.of_nat t)) in *. set (A := a t) in *. set (D := a 0%nat) in *.
  destruct (Qlt_le_dec (1 # 1000) A) as [Hgt|Hle]; [|assumption].
  exfalso.
  assert (Hc : 1 + 1000 * D <= 1 + n * (1 - damping)) by lra.
  assert (H1 : (1 # 1000) * (1 + 1000 * D) < A * (1 + n * (1 - damping))) by nra.
  lra.
Qed.

Lemma iterate_loop_S (u : nat -> Q) (fuel : nat) (corpus : corpus_t)
      (damping N : Q) (initial next : dict Q) (pos : nat) :
  iterate_loop u (S fuel) corpus damping N initial next pos
  = match has_not_converged u initial next pos with
    | Ok (true, pos') =>
        match calculate_pr corpus damping next N with
        | Ok next' => iterate_loop u fuel corpus damping N next next' pos'
        | Raise e => Raise e
        | OutOfFuel => OutOfFuel
        end
    | Ok (false, pos') => Ok (next, pos')
    | Raise e => Raise e
    | OutOfFuel => OutOfFuel
    end.
Proof.
  simpl. unfold bindR at 1.
  destruct (has_not_converged u initial next pos) as [[[|] p]| |]; try reflexivity.
  unfold bindR, lift. now destruct (calculate_pr corpus damping next N).
Qed.

(** The convergence test between two vectors of the iteration. *)
Lemma has_not_converged_iterates (u : nat -> Q) (corpus : corpus_t) (damping : Q)
      (t pos : nat) :
  link_graph corpus = true -> corpus <> [] -> tape_ok u ->
  exists b,
    has_not_converged u (iterate_vec corpus damping t)
      (iterate_vec corpus damping (S t)) pos = Ok (b, S pos)
    /\ (iterate_gap corpus damping t <= TOLERANCE -> b = false).
Proof.
  intros Hwf Hne Hu.
  destruct (iterate_vec_ok corpus damping t Hwf Hne) as [_ Hk].
  destruct (iterate_vec_ok corpus damping (S t) Hwf Hne) as [_ Hk'].
  assert (Hks : keys corpus <> []) by (destruct corpus; [congruence | discriminate]).
  destruct (choice_ok u (keys corpus) pos Hu Hks) as [i [Hnth Hc]].
  pose proof (nth_error_In _ _ Hnth) as Hi.
  eexists. split.
  - apply (has_not_converged_at u _ _ pos i); rewrite ?Hk, ?Hk'; assumption.
  - intros Hgap. destruct (Qlt_le_dec TOLERANCE _) as [H|H]; [|reflexivity].
    exfalso.
    pose proof (distance_entry (keys corpus)
                  (value_at (iterate_vec corpus damping (S t)))
                  (value_at (iterate_vec corpus damping t)) i Hi) as Hentry.
    fold (iterate_gap corpus damping t) in Hentry. lra.
Qed.

Lemma iterate_loop_terminates (u : nat -> Q) (corpus : corpus_t) (damping : Q) :
  link_graph corpus = true -> corpus <> [] -> tape_ok u ->
  forall n t pos,
    iterate_gap corpus damping (t + n) <= TOLERANCE ->
    exists v pos',
      iterate_loop u (S n) corpus damping (len corpus)
        (iterate_vec corpus damping t) (iterate_vec corpus damping (S t)) pos
      = Ok (v, pos').
Proof.
  intros Hwf Hne Hu. induction n as [|n IH]; intros t pos Hgap;
    rewrite iterate_loop_S;
    destruct (has_not_converged_iterates u corpus damping t pos Hwf Hne Hu)
      as [b [Hb Hfalse]]; rewrite Hb.
  - rewrite Nat.add_0_r in Hgap. rewrite (Hfalse Hgap). eauto.
  - destruct b; [|eauto].
    rewrite iterate_vec_step by assumption.
    apply IH. now replace (S t + n)%nat with (t + S n)%nat by lia.
Qed.

(** Below damping [1], on a link graph, some fuel is enough for every
    random source. *)
Lemma iterate_pagerank_fuel (corpus : corpus_t) (damping : Q) :
  link_graph corpus = true -> corpus <> [] -> 0 <= damping < 1 ->
  exists fuel, forall u pos,
    tape_ok u ->
    exists v pos', iterate_pagerank u fuel corpus damping pos = Ok (v, pos').
Proof.
  intros Hwf Hne Hd.
  destruct (iterate_gap_small corpus damping Hwf Hne Hd) as [T HT].
  exists (S T). intros u pos Hu.
  unfold iterate_pagerank, bindR at 1, lift at 1.
  rewrite pydiv_len by assumption.
  unfold bindR at 1, lift at 1. fold (initial_ranks corpus).
  destruct (iterate_vec_ok corpus damping 0 Hwf Hne) as [H0 _].
  simpl relax_n in H0. rewrite H0.
  unfold bindR at 1, lift at 1.
  rewrite iterate_vec_step by assumption.
  apply iterate_loop_terminates; try assumption.
  apply HT. lia.
Qed.

(** C8 (amended). On a link graph with at least one page and a damping
    factor of [[0, 99/100]], [iterate_pagerank] returns a vector after a
    number of iterations bounded whatever the random source yields. *)
Theorem iterate_pagerank_terminates (corpus : corpus_t) (damping : Q) :
  link_graph corpus = true ->
  corpus <> [] ->
  0 <= damping <= 99 # 100 ->
  exists fuel, forall u pos,
    tape_ok u ->
    exists v pos', iterate_pagerank u fuel corpus damping pos = Ok (v, pos').
Proof.
  intros Hwf Hne [Hd0 Hd1]. apply iterate_pagerank_fuel; try assumption.
  split; [assumption | lra].
Qed.

(** ** [sample_pagerank] *)

Lemma accumulate_length (acc : Q) (ws : list Q) :
  List.length (accumulate acc ws) = List.length ws.
Proof.
  revert acc. induction ws as [|w ws IH]; intros acc; simpl; [reflexivity|].
  now rewrite IH.
Qed.

Lemma accumulate_last (acc : Q) (ws : list Q) :
  ws <> [] ->
  exists total,
    last (map Some (accumulate acc ws)) None = Some total
    /\ total == acc + Qsum ws.
Proof.
  revert acc. induction ws as [|w ws IH]; intros acc Hne; [congruence|].
  destruct ws as [|w' ws'].
  - exists (acc + w). split; [reflexivity|]. simpl. ring.
  - destruct (IH (acc + w)) as [total [Hl Ht]]; [discriminate|].
    exists total. split.
    + simpl in Hl |- *. exact Hl.
    + rewrite Ht. simpl. ring.
Qed.

(** The binary search ends within [hi - lo + 1] turns, between [lo] and
    [hi]. *)
Lemma bisect_loop_ok {A : Type} (lt : A -> A -> bool) (a : list A) (x : A)
      (fuel lo hi : nat) :
  (lo <= hi)%nat -> (hi <= List.length a)%nat -> (hi - lo < fuel)%nat ->
  exists i, bisect_loop lt fuel a x lo hi = Ok i /\ (lo <= i <= hi)%nat.
Proof.
  revert lo hi. induction fuel as [|fuel IH]; intros lo hi Hle Hlen Hfuel; [lia|].
  cbn [bisect_loop]. cbv zeta. destruct (Nat.ltb_spec lo hi) as [Hlt|Hge].
  - assert (Hmid : (lo <= (lo + hi) / 2 < hi)%nat).
    { split.
      - apply Nat.div_le_lower_bound; lia.
      - apply Nat.Div0.div_lt_upper_bound; lia. }
    destruct (nth_error a ((lo + hi) / 2)%nat) as [c|] eqn:E.
    + destruct (lt x c).
      * destruct (IH lo ((lo + hi) / 2)%nat) as [i [Hi Hb]]; try lia.
        exists i. split; [assumption | lia].
      * destruct (IH ((lo + hi) / 2 + 1)%nat hi) as [i [Hi Hb]]; try lia.
        exists i. split; [assumption | lia].
    + apply nth_error_None in E. lia.
  - exists lo. split; [reflexivity | lia].
Qed.

Lemma bisect_ok (cum : list Q) (x : Q) (hi : nat) :
  (hi <= List.length cum)%nat ->
  exists i, bisect cum x hi = Ok i /\ (i <= hi)%nat.
Proof.
  intros H. unfold bisect.
  destruct (bisect_loop_ok (fun x c => if Qlt_le_dec x c then true else false)
              cum x (S hi) 0 hi) as [i [Hi Hb]]; try lia.
  exists i. split; [assumption | lia].
Qed.

(** A weighted draw with weights of positive sum returns a member of the
    population and reads the tape once. *)
Lemma choices_ok {A : Type} (u : nat -> Q) (population : list A) (weights : list Q)
      (pos : nat) :
  population <> [] -> List.length weights = List.length population ->
  0 < Qsum weights ->
  exists a, choices u population weights pos = Ok (a, S pos) /\ In a population.
Proof.
  intros Hne Hlen Hsum.
  assert (Hw : weights <> []) by (destruct weights, population; simpl in *; congruence).
  destruct (accumulate_last 0 weights Hw) as [total [Hl Ht]].
  assert (Hpos : Qle_bool total 0 = false).
  { destruct (Qle_bool total 0) eqn:E; [|reflexivity].
    apply Qle_bool_iff in E. rewrite Ht in E. exfalso. lra. }
  destruct (bisect_ok (accumulate 0 weights) (u pos * total)
              (List.length population - 1)) as [idx [Hb Hidx']].
  { rewrite accumulate_length, Hlen. lia. }
  assert (Hidx : (idx < List.length population)%nat)
    by (destruct population; [congruence | simpl in *; lia]).
  assert (Hrun : forall a, nth_error population idx = Some a ->
                           choices u population weights pos = Ok (a, S pos)).
  { intros a E. unfold choices.
    rewrite accumulate_length, Hlen, Nat.eqb_refl, Hl, Hpos.
    unfold bindR, random, lift. cbn [negb]. cbv beta. rewrite Hb. now rewrite E. }
  destruct (nth_error population idx) as [a|] eqn:E.
  - exists a. split; [now apply Hrun|]. now apply nth_error_In in E.
  - apply nth_error_None in E. lia.
Qed.

Lemma transition_model_draw (u : nat -> Q) (corpus : corpus_t) (damping : Q)
      (pg : page) (pos : nat) :
  link_graph corpus = true -> In pg (keys corpus) ->
  exists tm next_page,
    transition_model corpus pg damping = Ok tm
    /\ choices u (keys tm) (values tm) pos = Ok (next_page, S pos)
    /\ In next_page (keys corpus).
Proof.
  intros Hwf Hpg. pose proof (link_graph_keys _ Hwf) as Hnd.
  destruct (dict_get_has _ _ Hpg) as [links Hget].
  destruct (link_graph_links _ _ _ Hwf (dict_get_In _ _ _ Hget)) as [Hls Hincl].
  assert (Hne : corpus <> []) by (intros ->; contradiction).
  pose proof (transition_model_table corpus pg links damping Hwf Hget) as Htm.
  set (tm := tabulate (keys corpus) (transition_distribution corpus links damping)) in *.
  assert (Hk : keys tm = keys corpus) by apply keys_tabulate.
  destruct (choices_ok u (keys tm) (values tm) pos) as [a [Ha Hin]].
  - rewrite Hk. destruct corpus; [congruence | discriminate].
  - unfold keys, values. now rewrite !length_map.
  - unfold tm. rewrite values_tabulate, transition_distribution_sum by assumption. lra.
  - exists tm, a. rewrite <- Hk. auto.
Qed.

(** The sampling loop appends [count] pages, those of a random walk. *)
Lemma sample_loop_walk (u : nat -> Q) (corpus : corpus_t) (damping : Q) :
  link_graph corpus = true ->
  forall count pg samples pos,
    In pg (keys corpus) ->
    exists drawn,
      sample_loop u corpus damping count pg samples pos
      = Ok (samples ++ drawn, (pos + count)%nat)
      /\ List.length drawn = count
      /\ incl drawn (keys corpus)
      /\ walk u corpus damping pg pos drawn.
Proof.
  intros Hwf. induction count as [|count IH]; intros pg samples pos Hpg.
  - exists []. rewrite app_nil_r, Nat.add_0_r. repeat split.
    + intros x [].
    + constructor.
  - destruct (transition_model_draw u corpus damping pg pos Hwf Hpg)
      as [tm [next_page [Htm [Hdraw Hnext]]]].
    destruct (IH next_page (samples ++ [next_page]) (S pos) Hnext)
      as [drawn [Hloop [Hlen [Hincl Hwalk]]]].
    exists (next_page :: drawn). repeat split.
    + simpl sample_loop. unfold bindR at 1, lift at 1. rewrite Htm.
      unfold bindR at 1. rewrite Hdraw, Hloop.
      rewrite <- app_assoc. simpl. f_equal. f_equal. lia.
    + simpl. now rewrite Hlen.
    + intros x [<-|Hx]; [assumption | now apply Hincl].
    + econstructor; eassumption.
Qed.

Lemma times_cons (s : page) (samples : list page) (k : page) :
  times (s :: samples) k == (if String.eqb k s then 1 else 0) + times samples k.
Proof.
  unfold times. simpl count_occ. destruct (string_dec s k) as [->|Hne].
  - rewrite String.eqb_refl, Nat2Z.inj_succ, <- Z.add_1_l, inject_Z_plus.
    reflexivity.
  - destruct (String.eqb_spec k s) as [->|_]; [congruence|]. ring.
Qed.

(** The counts of the pages partition the samples. *)
Lemma times_sum (ks samples : list page) :
  NoDup ks -> incl samples ks -> sum_over ks (times samples) == len samples.
Proof.
  intros Hnd. induction samples as [|s samples IH]; intros Hincl.
  - rewrite len_nil. unfold times. simpl. apply sum_over_zero.
  - rewrite (sum_over_ext _ _ _ (fun k _ => times_cons s samples k)).
    rewrite sum_over_plus, sum_over_at, IH, len_cons; auto with datatypes.
    + reflexivity.
    + intros x Hx. apply Hincl. now right.
Qed.

Lemma count_sum (ks samples : list page) :
  NoDup ks -> incl samples ks ->
  list_sum (map (count_occ string_dec samples) ks) = List.length samples.
Proof.
  intros Hnd Hincl. pose proof (times_sum ks samples Hnd Hincl) as H.
  assert (E : forall l,
             sum_over l (times samples)
             == inject_Z (Z.of_nat (list_sum (map (count_occ string_dec samples) l)))).
  { induction l as [|k l IH]; [reflexivity|].
    rewrite sum_over_cons, IH. simpl map. simpl list_sum.
    rewrite Nat2Z.inj_add, inject_Z_plus. reflexivity. }
  rewrite E in H. unfold len in H. rewrite inject_Z_injective in H.
  now apply Nat2Z.inj in H.
Qed.

(** C3 (amended). On a link graph with at least one page, a damping
    factor of [[0, 1]] and [n >= 1], [sample_pagerank] draws a starting
    page, then the [n] pages of a random walk from it, and gives each
    page of the corpus the rank (number of times it is among these [n]
    pages) / [n]; the counts of the pages sum to [n]. The starting page
    is not among the samples unless the walk draws it. *)
Theorem sample_pagerank_ranks (u : nat -> Q) (corpus : corpus_t) (damping : Q)
        (n : Z) (pos : nat) :
  link_graph corpus = true ->
  corpus <> [] ->
  0 <= damping <= 1 ->
  (1 <= n)%Z ->
  tape_ok u ->
  exists starting_page samples pr,
    choice u (keys corpus) pos = Ok (starting_page, S pos)
    /\ walk u corpus damping starting_page (S pos) samples
    /\ Z.of_nat (List.length samples) = n
    /\ sample_pagerank u corpus damping n pos = Ok (pr, (S pos + Z.to_nat n)%nat)
    /\ pr = tabulate (keys corpus) (fun k => times samples k / inject_Z n)
    /\ Z.of_nat (list_sum (map (count_occ string_dec samples) (keys corpus))) = n.
Proof.
  intros Hwf Hne _ Hn Hu. pose proof (link_graph_keys _ Hwf) as Hnd.
  assert (Hks : keys corpus <> []) by (destruct corpus; [congruence | discriminate]).
  destruct (choice_ok u (keys corpus) pos Hu Hks) as [start [Hnth Hc]].
  pose proof (nth_error_In _ _ Hnth) as Hstart.
  destruct (sample_loop_walk u corpus damping Hwf (Z.to_nat n) start [] (S pos) Hstart)
    as [samples [Hloop [Hlen [Hincl Hwalk]]]].
  simpl app in Hloop.
  assert (Hn0 : ~ inject_Z n == 0).
  { change 0 with (inject_Z 0). rewrite inject_Z_injective. lia. }
  exists start, samples. eexists. repeat split.
  - exact Hc.
  - exact Hwalk.
  - lia.
  - unfold sample_pagerank, bindR at 1. rewrite Hc.
    unfold bindR at 1. rewrite Hloop. unfold lift.
    rewrite (dict_of_keys_tabulate _ _ (fun k => times samples k / inject_Z n));
      [reflexivity | assumption |].
    intros k _. now apply pydiv_ok.
  - rewrite count_sum by assumption. unfold page in *. lia.
Qed.

(** ** What the functions do on inputs off their contract *)

Lemma transition_model_unknown_page (corpus : corpus_t) (pg : page) (damping : Q) :
  ~ In pg (keys corpus) -> transition_model corpus pg damping = Raise KeyError.
Proof.
  intros H. unfold transition_model. now rewrite dict_get_miss.
Qed.

Lemma sample_pagerank_zero (u : nat -> Q) (corpus : corpus_t) (damping : Q)
      (pos : nat) :
  corpus <> [] -> tape_ok u ->
  sample_pagerank u corpus damping 0 pos = Raise ZeroDivisionError.
Proof.
  intros Hne Hu.
  assert (Hks : keys corpus <> []) by (destruct corpus; [congruence | discriminate]).
  destruct (choice_ok u (keys corpus) pos Hu Hks) as [start [_ Hc]].
  unfold sample_pagerank, bindR at 1. rewrite Hc.
  destruct corpus as [|[k links] corpus]; [congruence|]. reflexivity.
Qed.

Lemma sample_pagerank_negative (u : nat -> Q) (corpus : corpus_t) (damping : Q)
      (n : Z) (pos : nat) :
  link_graph corpus = true -> corpus <> [] -> tape_ok u -> (n < 0)%Z ->
  sample_pagerank u corpus damping n pos
  = Ok (tabulate (keys corpus) (fun _ => 0 / inject_Z n), S pos).
Proof.
  intros Hwf Hne Hu Hn. pose proof (link_graph_keys _ Hwf) as Hnd.
  assert (Hks : keys corpus <> []) by (destruct corpus; [congruence | discriminate]).
  destruct (choice_ok u (keys corpus) pos Hu Hks) as [start [_ Hc]].
  unfold sample_pagerank, bindR at 1. rewrite Hc.
  replace (Z.to_nat n) with 0%nat by lia. unfold bindR, sample_loop, ret, lift.
  rewrite (dict_of_keys_tabulate _ _ (fun _ => 0 / inject_Z n));
    [reflexivity | assumption |].
  intros k _. apply pydiv_ok.
  change 0 with (inject_Z 0). rewrite inject_Z_injective. lia.
Qed.

Lemma iterate_loop_no_raise (u : nat -> Q) (corpus : corpus_t) (damping : Q) :
  link_graph corpus = true -> corpus <> [] -> tape_ok u ->
  forall fuel t pos e,
    iterate_loop u fuel corpus damping (len corpus)
      (iterate_vec corpus damping t) (iterate_vec corpus damping (S t)) pos
    <> Raise e.
Proof.
  intros Hwf Hne Hu. induction fuel as [|fuel IH]; intros t pos e; [discriminate|].
  rewrite iterate_loop_S.
  destruct (has_not_converged_iterates u corpus damping t pos Hwf Hne Hu)
    as [b [Hb _]].
  rewrite Hb. destruct b; [|discriminate].
  rewrite iterate_vec_step by assumption. apply IH.
Qed.

Lemma iterate_pagerank_no_raise (u : nat -> Q) (fuel : nat) (corpus : corpus_t)
      (damping : Q) (pos : nat) (e : exn) :
  link_graph corpus = true -> corpus <> [] -> tape_ok u ->
  iterate_pagerank u fuel corpus damping pos <> Raise e.
Proof.
  intros Hwf Hne Hu.
  unfold iterate_pagerank, bindR at 1, lift at 1.
  rewrite pydiv_len by assumption.
  unfold bindR at 1, lift at 1. fold (initial_ranks corpus).
  destruct (iterate_vec_ok corpus damping 0 Hwf Hne) as [H0 _].
  simpl relax_n in H0. rewrite H0.
  unfold bindR at 1, lift at 1.
  rewrite iterate_vec_step by assumption.
  now apply iterate_loop_no_raise.
Qed.

(** C6 (amended). The functions validate nothing; the errors are those
    of the operations they run. [transition_model] raises [KeyError] on a
    page that is not a key of the graph, so on every page of the empty
    graph; [sample_pagerank] raises [IndexError] on the empty graph and
    [ZeroDivisionError] for [n = 0] on a graph with a page;
    [iterate_pagerank] raises [ZeroDivisionError] on the empty graph. No
    damping factor is refused: on a link graph [transition_model] returns
    a dict for every page and damping factor and [iterate_pagerank]
    raises nothing; and for [n < 0] [sample_pagerank] returns the rank
    [0 / n] at every page. *)
Theorem core_functions_errors (u : nat -> Q) (corpus : corpus_t) (pg : page)
        (damping : Q) (n : Z) (fuel pos : nat) :
  tape_ok u ->
  (~ In pg (keys corpus) -> transition_model corpus pg damping = Raise KeyError)
  /\ (corpus = [] -> sample_pagerank u corpus damping n pos = Raise IndexError)
  /\ (corpus = [] ->
      iterate_pagerank u fuel corpus damping pos = Raise ZeroDivisionError)
  /\ (corpus <> [] -> n = 0%Z ->
      sample_pagerank u corpus damping n pos = Raise ZeroDivisionError)
  /\ (link_graph corpus = true -> In pg (keys corpus) ->
      exists tm, transition_model corpus pg damping = Ok tm)
  /\ (link_graph corpus = true -> corpus <> [] ->
      forall e, iterate_pagerank u fuel corpus damping pos <> Raise e)
  /\ (link_graph corpus = true -> corpus <> [] -> (n < 0)%Z ->
      sample_pagerank u corpus damping n pos
      = Ok (tabulate (keys corpus) (fun _ => 0 / inject_Z n), S pos)).
Proof.
  intros Hu. repeat split.
  - apply transition_model_unknown_page.
  - now intros ->.
  - now intros ->.
  - intros Hne ->. now apply sample_pagerank_zero.
  - intros Hwf Hpg. destruct (dict_get_has _ _ Hpg) as [links Hget].
    eexists. apply transition_model_table; eassumption.
  - intros Hwf Hne e. now apply iterate_pagerank_no_raise.
  - intros Hwf Hne Hn. now apply sample_pagerank_negative.
Qed.

(** ** [crawl] builds link graphs *)

Lemma keys_dict_set_in {V : Type} (d : dict V) (k : page) (v : V) :
  In k (keys d) -> keys (dict_set d k v) = keys d.
Proof.
  induction d as [|[k' v'] d IH]; simpl; [contradiction|].
  intros H. destruct (String.eqb_spec k' k) as [->|Hne]; [reflexivity|].
  simpl. f_equal. apply IH. destruct H; [contradiction | assumption].
Qed.

Lemma keys_dict_set_new {V : Type} (d : dict V) (k : page) (v : V) :
  ~ In k (keys d) -> keys (dict_set d k v) = keys d ++ [k].
Proof.
  induction d as [|[k' v'] d IH]; simpl; [reflexivity|].
  intros H. destruct (String.eqb_spec k' k) as [->|Hne].
  - exfalso. apply H. now left.
  - simpl. f_equal. apply IH. intros H'. apply H. now right.
Qed.

Lemma NoDup_keys_dict_set {V : Type} (d : dict V) (k : page) (v : V) :
  NoDup (keys d) -> NoDup (keys (dict_set d k v)).
Proof.
  intros Hnd. destruct (in_dec string_dec k (keys d)) as [Hin|Hout].
  - now rewrite keys_dict_set_in.
  - rewrite keys_dict_set_new by assumption.
    apply NoDup_app; [assumption | repeat constructor; intros [] |].
    intros x Hx [<-|[]]. contradiction.
Qed.

Lemma In_dict_set {V : Type} (d : dict V) (k k' : page) (v v' : V) :
  In (k', v') (dict_set d k v) -> (k' = k /\ v' = v) \/ In (k', v') d.
Proof.
  induction d as [|[k0 v0] d IH]; simpl.
  - intros [[= <- <-]|[]]. now left.
  - destruct (String.eqb_spec k0 k) as [->|Hne]; simpl.
    + intros [[= <- <-]|H]; [now left | right; now right].
    + intros [H|H]; [right; now left|].
      destruct (IH H) as [H'|H']; [now left | right; now right].
Qed.

Lemma dict_get_set_same {V : Type} (d : dict V) (k : page) (v : V) :
  dict_get (dict_set d k v) k = Ok v.
Proof.
  induction d as [|[k0 v0] d IH]; simpl.
  - now rewrite String.eqb_refl.
  - destruct (String.eqb_spec k0 k) as [->|Hne]; simpl.
    + now rewrite String.eqb_refl.
    + apply String.eqb_neq in Hne. now rewrite Hne.
Qed.

Lemma dict_get_set_other {V : Type} (d : dict V) (k k' : page) (v : V) :
  k' <> k -> dict_get (dict_set d k v) k' = dict_get d k'.
Proof.
  intros Hne. induction d as [|[k0 v0] d IH]; simpl.
  - destruct (String.eqb_spec k k'); [congruence | reflexivity].
  - destruct (String.eqb_spec k0 k) as [->|Hne0]; simpl.
    + destruct (String.eqb_spec k k'); [congruence | reflexivity].
    + now rewrite IH.
Qed.

Lemma crawl_first_loop (files : list (page * list page)) (pages : corpus_t) :
  NoDup (keys pages) -> stored_sets pages ->
  let pages' :=
    fold_left
      (fun pages '(filename, links) =>
         dict_set pages filename (remove string_dec filename (nodup string_dec links)))
      files pages in
  NoDup (keys pages') /\ stored_sets pages'.
Proof.
  revert pages. induction files as [|[filename links] files IH]; intros pages Hnd Hst.
  - now split.
  - simpl. apply IH.
    + now apply NoDup_keys_dict_set.
    + intros k v Hin. apply In_dict_set in Hin. destruct Hin as [[-> ->]|Hin].
      * split; [|apply remove_In].
        assert (Hn : NoDup (nodup string_dec links)) by apply NoDup_nodup.
        induction Hn as [|x l Hx Hl IHl]; simpl; [constructor|].
        destruct (string_dec filename x); [assumption|].
        constructor; [|assumption]. intros H. apply in_remove in H. now destruct H.
      * now apply Hst.
Qed.

Lemma crawl_second_loop (K done todo : list page) (pages : corpus_t) :
  keys pages = K -> NoDup K -> stored_sets pages -> incl todo K ->
  (forall k, In k done -> incl (links_of pages k) K) ->
  let pages' :=
    fold_left
      (fun pages filename =>
         dict_set pages filename
           (filter (fun link => mem link (keys pages)) (links_of pages filename)))
      todo pages in
  keys pages' = K /\ stored_sets pages'
  /\ forall k, In k (done ++ todo) -> incl (links_of pages' k) K.
Proof.
  revert done pages. induction todo as [|f todo IH]; intros done pages Hk Hnd Hst Hincl Hdone.
  - simpl. rewrite app_nil_r. auto.
  - simpl fold_left.
    assert (Hf : In f (keys pages)) by (rewrite Hk; apply Hincl; now left).
    destruct (dict_get_has _ _ Hf) as [v Hv].
    assert (Hlinks : links_of pages f = v) by (unfold links_of; now rewrite Hv).
    destruct (Hst f v (dict_get_In _ _ _ Hv)) as [Hvn Hvf].
    replace (done ++ f :: todo) with ((done ++ [f]) ++ todo)
      by (now rewrite <- app_assoc).
    apply IH.
    + now rewrite keys_dict_set_in.
    + assumption.
    + intros k w Hin. apply In_dict_set in Hin. destruct Hin as [[-> ->]|Hin].
      * rewrite Hlinks. split; [now apply NoDup_filter|].
        intros H. apply filter_In in H. now destruct H.
      * now apply Hst.
    + intros x Hx. apply Hincl. now right.
    + intros k Hin. apply in_app_or in Hin. unfold links_of.
      destruct (string_dec k f) as [->|Hne].
      * rewrite dict_get_set_same. intros x Hx. apply filter_In in Hx.
        destruct Hx as [_ Hx]. apply mem_In in Hx. now rewrite <- Hk.
      * rewrite dict_get_set_other by assumption.
        destruct Hin as [Hin|[->|[]]]; [|congruence].
        now apply Hdone.
Qed.

Lemma link_graph_intro (corpus : corpus_t) :
  NoDup (keys corpus) ->
  (forall k v, In (k, v) corpus -> NoDup v /\ incl v (keys corpus)) ->
  link_graph corpus = true.
Proof.
  intros Hnd H. unfold link_graph. apply andb_true_iff. split.
  - now apply distinct_NoDup.
  - apply forallb_forall. intros [k v] Hin. destruct (H k v Hin) as [Hv Hincl].
    apply andb_true_iff. split; [now apply distinct_NoDup|].
    apply forallb_forall. intros l Hl. now apply mem_In, Hincl.
Qed.

(** The graphs the script computes on are link graphs, without a link
    from a page to itself. *)
Lemma crawl_link_graph (files : list (page * list page)) :
  link_graph (crawl files) = true
  /\ forall k links, In (k, links) (crawl files) -> ~ In k links.
Proof.
  destruct (crawl_first_loop files []) as [Hnd Hst];
    [constructor | intros k v [] |].
  match type of Hnd with
  | NoDup (keys ?p) => set (pages := p) in *
  end.
  destruct (crawl_second_loop (keys pages) [] (keys pages) pages)
    as [Hk [Hst' Hincl]]; auto using incl_refl.
  { intros k []. }
  match type of Hk with
  | keys ?p = _ => set (pages' := p) in *
  end.
  change (crawl files) with pages'.
  split.
  - apply link_graph_intro; [now rewrite Hk|].
    intros k v Hin. split; [now apply (Hst' k v)|].
    rewrite Hk. rewrite <- (links_of_item pages' k v); [|now rewrite Hk | assumption].
    apply Hincl. simpl. rewrite <- Hk. change k with (fst (k, v)). now apply in_map.
  - intros k v Hin. now apply (Hst' k v).
Qed.

(** ** [crawl] as a map over the files *)

Lemma dict_set_new {V : Type} (d : dict V) (k : page) (v : V) :
  ~ In k (keys d) -> dict_set d k v = d ++ [(k, v)].
Proof.
  induction d as [|[k' v'] d IH]; simpl; [reflexivity|].
  intros H. destruct (String.eqb_spec k' k) as [->|_].
  - exfalso. apply H. now left.
  - f_equal. apply IH. intros H'. apply H. now right.
Qed.

Lemma dict_get_app_miss {V : Type} (pre d : dict V) (k : page) :
  ~ In k (keys pre) -> dict_get (pre ++ d) k = dict_get d k.
Proof.
  induction pre as [|[k' v'] pre IH]; simpl; [reflexivity|].
  intros H. destruct (String.eqb_spec k' k) as [->|_].
  - exfalso. apply H. now left.
  - apply IH. intros H'. apply H. now right.
Qed.

Lemma dict_set_app_miss {V : Type} (pre d : dict V) (k : page) (v : V) :
  ~ In k (keys pre) -> dict_set (pre ++ d) k v = pre ++ dict_set d k v.
Proof.
  induction pre as [|[k' v'] pre IH]; simpl; [reflexivity|].
  intros H. destruct (String.eqb_spec k' k) as [->|_].
  - exfalso. apply H. now left.
  - f_equal. apply IH. intros H'. apply H. now right.
Qed.

Lemma keys_app {V : Type} (d d' : dict V) : keys (d ++ d') = keys d ++ keys d'.
Proof. apply map_app. Qed.

(** With distinct file names the first loop appends one entry per file. *)
Lemma crawl_first_loop_map (files : list (page * list page)) (pages : corpus_t) :
  NoDup (keys pages ++ keys files) ->
  fold_left
    (fun pages '(filename, links) =>
       dict_set pages filename (remove string_dec filename (nodup string_dec links)))
    files pages
  = pages ++ map (fun '(filename, links) =>
                    (filename, remove string_dec filename (nodup string_dec links)))
               files.
Proof.
  revert pages. induction files as [|[filename links] files IH]; intros pages Hnd.
  - simpl. now rewrite app_nil_r.
  - simpl fold_left. simpl map.
    rewrite dict_set_new.
    + rewrite IH.
      * now rewrite <- app_assoc.
      * rewrite keys_app. simpl. rewrite <- app_assoc. exact Hnd.
    + apply NoDup_remove_2 in Hnd. intros H. apply Hnd. apply in_or_app. now left.
Qed.

(** With distinct keys the second loop filters every link set in place. *)
Lemma crawl_second_loop_map (K : list page) (rest pre : corpus_t) :
  keys (pre ++ rest) = K -> NoDup K ->
  fold_left
    (fun pages filename =>
       dict_set pages filename
         (filter (fun link => mem link (keys pages)) (links_of pages filename)))
    (keys rest) (pre ++ rest)
  = pre ++ map (fun '(k, v) => (k, filter (fun link => mem link K) v)) rest.
Proof.
  revert pre. induction rest as [|[k v] rest IH]; intros pre Hk Hnd; [reflexivity|].
  assert (Hout : ~ In k (keys pre)).
  { rewrite <- Hk, keys_app in Hnd. simpl in Hnd.
    apply NoDup_remove_2 in Hnd. intros H. apply Hnd. apply in_or_app. now left. }
  assert (Hl : links_of (pre ++ (k, v) :: rest) k = v).
  { unfold links_of. rewrite dict_get_app_miss by assumption.
    simpl. now rewrite String.eqb_refl. }
  simpl keys. simpl fold_left. rewrite Hk, Hl.
  rewrite dict_set_app_miss by assumption. simpl dict_set. rewrite String.eqb_refl.
  replace (pre ++ (k, filter (fun link => mem link K) v) :: rest)
    with ((pre ++ [(k, filter (fun link => mem link K) v)]) ++ rest)
    by (now rewrite <- app_assoc).
  rewrite IH.
  - simpl map. now rewrite <- app_assoc.
  - rewrite <- Hk, !keys_app. simpl. now rewrite <- app_assoc.
  - assumption.
Qed.

Lemma crawl_map (files : list (page * list page)) :
  NoDup (keys files) ->
  crawl files
  = map (fun '(filename, links) =>
           (filename, crawl_links (keys files) filename links))
      files.
Proof.
  intros Hnd.
  set (pages := map (fun '(filename, links) =>
                       (filename, remove string_dec filename (nodup string_dec links)))
                  files).
  pose proof (crawl_first_loop_map files [] Hnd) as E. simpl app in E. fold pages in E.
  assert (Hk : keys pages = keys files).
  { unfold pages, keys. rewrite map_map. apply map_ext. now intros [f l]. }
  pose proof (crawl_second_loop_map (keys files) pages [] Hk Hnd) as E2.
  simpl app in E2.
  unfold crawl. cbv zeta.
  match goal with
  | |- fold_left _ (keys ?P) ?P = _ => replace P with pages by (symmetry; exact E)
  end.
  etransitivity; [exact E2|].
  unfold pages. rewrite map_map. apply map_ext. now intros [f l].
Qed.

Lemma crawl_directory_html (listing : list (page * list page)) :
  crawl_directory listing = crawl (html_files listing).
Proof.
  unfold crawl_directory, crawl.
  assert (E : forall pages,
             fold_left
               (fun pages '(filename, links) =>
                  if negb (endswith filename ".html") then pages
                  else dict_set pages filename
                         (remove string_dec filename (nodup string_dec links)))
               listing pages
             = fold_left
                 (fun pages '(filename, links) =>
                    dict_set pages filename
                      (remove string_dec filename (nodup string_dec links)))
                 (html_files listing) pages).
  { induction listing as [|[f l] listing IH]; intros pages; [reflexivity|].
    simpl. destruct (endswith f ".html"); simpl; apply IH. }
  now rewrite E.
Qed.

Lemma html_files_In (listing : list (page * list page)) (f : page) :
  In f (keys (html_files listing))
  <-> In f (keys listing) /\ endswith f ".html" = true.
Proof.
  unfold keys, html_files. rewrite !in_map_iff. split.
  - intros [[f' l] [<- H]]. apply filter_In in H. destruct H as [H E]. split.
    + exists (f', l). now split.
    + exact E.
  - intros [[[f' l] [<- H]] E]. exists (f', l). split; [reflexivity|].
    apply filter_In. now split.
Qed.

Lemma NoDup_html_files (listing : list (page * list page)) :
  NoDup (keys listing) -> NoDup (keys (html_files listing)).
Proof.
  intros Hnd. induction listing as [|[f l] listing IH]; simpl; [constructor|].
  inversion Hnd as [|? ? Hf Hrest]; subst.
  destruct (endswith f ".html"); simpl; [|now apply IH].
  constructor; [|now apply IH].
  intros H. apply html_files_In in H. now destruct H.
Qed.

(** The keys of the result are the names of the files read, whatever the
    names. *)
Lemma crawl_keys_In (files : list (page * list page)) (f : page) :
  In f (keys (crawl files)) <-> In f (keys files).
Proof.
  assert (Hfirst : forall pages,
             In f (keys (fold_left
                           (fun pages '(filename, links) =>
                              dict_set pages filename
                                (remove string_dec filename (nodup string_dec links)))
                           files pages))
             <-> In f (keys pages) \/ In f (keys files)).
  { induction files as [|[f' l] files IH]; intros pages.
    - simpl. tauto.
    - simpl fold_left. rewrite IH. simpl keys at 3. simpl In.
      destruct (in_dec string_dec f' (keys pages)) as [Hin|Hout].
      + rewrite keys_dict_set_in by assumption.
        split; [tauto|]. intros [H|[<-|H]]; tauto.
      + rewrite keys_dict_set_new by assumption. rewrite in_app_iff. simpl. tauto. }
  destruct (crawl_first_loop files []) as [Hnd Hst];
    [constructor | intros k v [] |].
  match type of Hnd with
  | NoDup (keys ?p) => set (pages := p) in *
  end.
  destruct (crawl_second_loop (keys pages) [] (keys pages) pages)
    as [Hk _]; auto using incl_refl.
  { intros k []. }
  match type of Hk with
  | keys ?p = _ => change (crawl files) with p
  end.
  rewrite Hk. unfold pages. rewrite Hfirst. simpl. tauto.
Qed.

(** X1. Whatever the directory holds, [crawl] returns a link graph: its
    keys are distinct, every link set is without repetition and made of
    keys of the result, and no page links to itself. *)
Theorem crawl_directory_link_graph (listing : list (page * list page)) :
  link_graph (crawl_directory listing) = true
  /\ forall k links, In (k, links) (crawl_directory listing) -> ~ In k links.
Proof.
  rewrite crawl_directory_html. apply crawl_link_graph.
Qed.

(** X2. The pages of the corpus [crawl] returns are the files of the
    directory whose name ends in [".html"], and only they. *)
Theorem crawl_directory_pages (listing : list (page * list page)) (f : page) :
  In f (keys (crawl_directory listing))
  <-> In f (keys listing) /\ endswith f ".html" = true.
Proof.
  rewrite crawl_directory_html, crawl_keys_In. apply html_files_In.
Qed.

(** X3. In a directory (its file names are distinct), the links [crawl]
    gives to an HTML file are the targets found in it, except the file
    itself, that are HTML files of the directory. *)
Theorem crawl_directory_links (listing : list (page * list page))
        (f : page) (hrefs : list page) (l : page) :
  distinct (keys listing) = true ->
  In (f, hrefs) listing ->
  endswith f ".html" = true ->
  (In l (links_of (crawl_directory listing) f)
   <-> In l hrefs /\ l <> f /\ In l (keys listing) /\ endswith l ".html" = true).
Proof.
  intros Hnd Hin Hf. apply distinct_NoDup in Hnd.
  pose proof (NoDup_html_files listing Hnd) as Hh.
  assert (Hin' : In (f, hrefs) (html_files listing))
    by (apply filter_In; now split).
  rewrite crawl_directory_html, crawl_map by assumption.
  set (names := keys (html_files listing)).
  rewrite (links_of_item _ f (crawl_links names f hrefs)).
  - unfold crawl_links. rewrite filter_In, mem_In. unfold names.
    rewrite html_files_In. split.
    + intros [H1 [H2 H3]]. apply in_remove in H1. destruct H1 as [H1 Hne].
      apply nodup_In in H1. tauto.
    + intros [H1 [Hne [H2 H3]]]. split; [|tauto].
      apply in_in_remove; [assumption|]. now apply nodup_In.
  - unfold keys. rewrite map_map.
    replace (map _ (html_files listing)) with (keys (html_files listing));
      [assumption|].
    unfold keys. apply map_ext. now intros [a b].
  - apply in_map_iff. exists (f, hrefs). now split.
Qed.

(** ** More on [transition_model] *)

Lemma get_tabulate_miss {V : Type} (ks : list page) (f : page -> V) (k : page) :
  ~ In k ks -> dict_get (tabulate ks f) k = Raise KeyError.
Proof.
  intros H. apply dict_get_miss. now rewrite keys_tabulate.
Qed.

(** The loop over the links stops with [KeyError] at the first link that
    is not a key. *)
Lemma incr_all_dangling (ks ls : list page) (f : page -> Q) (d n : Q) :
  NoDup ks -> ~ n == 0 -> (exists l, In l ls /\ ~ In l ks) ->
  for_each ls (fun tm link => q <- pydiv d n ;; dict_incr tm link q) (tabulate ks f)
  = Raise KeyError.
Proof.
  intros Hnd Hn. rewrite (pydiv_ok d n Hn). revert f.
  induction ls as [|h ls IH]; intros f [l [Hl Hout]]; [contradiction|].
  loop_step. rewrite bind_Ok.
  destruct (in_dec string_dec h ks) as [Hh|Hh].
  - rewrite incr_tabulate, bind_Ok by assumption. apply IH.
    exists l. split; [|assumption]. destruct Hl as [->|Hl]; [contradiction | assumption].
  - unfold dict_incr. now rewrite get_tabulate_miss.
Qed.

(** X4. When the links of the page include one that is not a page of
    the corpus, [transition_model] raises [KeyError]. *)
Theorem transition_model_dangling_link (corpus : corpus_t) (pg : page)
        (links : list page) (damping : Q) :
  distinct (keys corpus) = true ->
  dict_get corpus pg = Ok links ->
  dangling corpus links = true ->
  transition_model corpus pg damping = Raise KeyError.
Proof.
  intros Hnd Hget Hd. apply distinct_NoDup in Hnd.
  unfold dangling in Hd. apply existsb_exists in Hd.
  destruct Hd as [l [Hl Hout]]. apply negb_true_iff, mem_not_In in Hout.
  assert (Hne : corpus <> []) by (destruct corpus; [discriminate | congruence]).
  unfold transition_model. rewrite Hget. simpl.
  rewrite pydiv_len by assumption. simpl.
  rewrite (dict_of_keys_tabulate _ _ (fun _ => (1 - damping) / len corpus))
    by auto. simpl.
  rewrite (for_each_at_key corpus pg links
             (fun tm v =>
                match v with
                | [] => for_each (keys corpus)
                          (fun tm pp => q <- pydiv 1 (len corpus) ;; Ok (dict_set tm pp q)) tm
                | _ => for_each v
                         (fun tm link => q <- pydiv damping (len links) ;; dict_incr tm link q) tm
                end)) by assumption.
  destruct links as [|l0 links']; [contradiction|]. cbv iota.
  apply incr_all_dangling; [assumption | now apply len_nonzero | eauto].
Qed.

Lemma transition_distribution_lower (corpus : corpus_t) (links : list page)
      (damping : Q) (k : page) :
  0 <= damping <= 1 ->
  (1 - damping) / len corpus <= transition_distribution corpus links damping k.
Proof.
  intros [H0 H1]. unfold transition_distribution.
  pose proof (len_nonneg corpus) as HN. pose proof (len_nonneg links) as Hn.
  assert (Hq : 0 <= damping / len links) by (apply Qdiv_nonneg; lra).
  destruct links as [|l ls].
  - unfold Qdiv. apply Qmult_le_compat_r; [lra | now apply Qinv_le_0_compat].
  - destruct (mem k (l :: ls)); lra.
Qed.

(** X5. On a link graph, one of its pages and a damping factor of
    [[0, 1]], every probability [transition_model] returns lies between
    [(1 - damping)/N] and [1]. *)
Theorem transition_model_bounds (corpus : corpus_t) (pg : page) (damping : Q) :
  link_graph corpus = true ->
  In pg (keys corpus) ->
  0 <= damping <= 1 ->
  exists tm,
    transition_model corpus pg damping = Ok tm
    /\ forall k, In k (keys corpus) ->
         (1 - damping) / len corpus <= value_at tm k <= 1.
Proof.
  intros Hwf Hpg Hd.
  destruct (dict_get_has _ _ Hpg) as [links Hget].
  pose proof (link_graph_keys _ Hwf) as Hnd.
  destruct (link_graph_links _ _ _ Hwf (dict_get_In _ _ _ Hget)) as [Hls Hincl].
  assert (Hne : corpus <> []) by (intros ->; contradiction).
  eexists. split; [apply transition_model_table; eassumption|].
  intros k Hk. rewrite value_at_tabulate by assumption. split.
  - now apply transition_distribution_lower.
  - rewrite <- (transition_distribution_sum corpus links damping) by assumption.
    apply (sum_over_term (keys corpus) (transition_distribution corpus links damping));
      [|assumption].
    intros j _. now apply transition_distribution_nonneg.
Qed.

(** ** More on [calculate_pr] *)

Lemma nonneg_value_at (d : dict Q) (k : page) :
  nonneg d = true -> 0 <= value_at d k.
Proof.
  intros H. unfold value_at. destruct (dict_get d k) as [v| |] eqn:E; try apply Qle_refl.
  apply dict_get_In in E. unfold nonneg in H. rewrite forallb_forall in H.
  apply Qle_bool_iff, H. unfold values. change v with (snd (k, v)). now apply in_map.
Qed.

Lemma contribution_nonneg (corpus : corpus_t) (x : page -> Q) (k pg : page) :
  0 <= x k -> 0 <= contribution corpus x k pg.
Proof.
  intros H. unfold contribution. destruct (links_of corpus k) as [|l ls].
  - apply Qdiv_nonneg; [assumption | apply len_nonneg].
  - destruct (mem pg (l :: ls)); [|apply Qle_refl].
    apply Qdiv_nonneg; [assumption | apply len_nonneg].
Qed.

Lemma relaxation_lower (corpus : corpus_t) (damping : Q) (x : page -> Q) (pg : page) :
  0 <= damping -> (forall k, 0 <= x k) ->
  (1 - damping) / len corpus <= relaxation corpus damping x pg.
Proof.
  intros Hd Hx. unfold relaxation.
  assert (0 <= damping * sum_over (keys corpus) (fun k => contribution corpus x k pg)).
  { apply Qmult_le_0_compat; [assumption|]. apply sum_over_nonneg.
    intros k _. now apply contribution_nonneg. }
  lra.
Qed.

(** X6. With a damping factor that is not negative and a current vector
    without negative entry, every entry [calculate_pr] returns is at
    least [(1 - damping)/N]. *)
Theorem calculate_pr_lower_bound (corpus : corpus_t) (damping : Q) (current : dict Q) :
  distinct (keys corpus) = true ->
  corpus <> [] ->
  covers current corpus = true ->
  nonneg current = true ->
  0 <= damping ->
  exists new,
    calculate_pr corpus damping current (len corpus) = Ok new
    /\ forall pg, In pg (keys corpus) ->
         (1 - damping) / len corpus <= value_at new pg.
Proof.
  intros Hnd Hne Hcov Hpos Hd. apply distinct_NoDup in Hnd. apply covers_incl in Hcov.
  eexists. split; [apply calculate_pr_table; auto using len_nonzero|].
  intros pg Hpg. rewrite value_at_tabulate, pr_entry_relaxation by assumption.
  apply relaxation_lower; [assumption|]. intros k. now apply nonneg_value_at.
Qed.

(** One turn of the inner loop that reads no missing entry ends well. *)
Lemma pr_body_ok (damping N : Q) (current : dict Q) (ks : list page) (pg : page)
      (f : page -> Q) (key : page) (links : list page) :
  NoDup ks -> In pg ks -> ~ N == 0 ->
  In key (keys current) \/ (links <> [] /\ mem pg links = false) ->
  exists f', pr_body damping N current pg (tabulate ks f) (key, links)
             = Ok (tabulate ks f').
Proof.
  intros Hnd Hpg HN Hread. unfold pr_body. destruct links as [|l ls].
  - destruct Hread as [Hin|[Hne _]]; [|congruence].
    rewrite (dict_get_value_at current key Hin), bind_Ok, pydiv_ok, bind_Ok
      by assumption.
    rewrite incr_tabulate by assumption. rewrite bind_Ok.
    change (mem pg []) with false. cbv iota. eauto.
  - rewrite bind_Ok. destruct (mem pg (l :: ls)) eqn:Hm; [|eauto].
    destruct Hread as [Hin|[_ Hf]]; [|discriminate].
    rewrite (dict_get_value_at current key Hin), bind_Ok, pydiv_len, bind_Ok
      by discriminate.
    rewrite incr_tabulate by assumption. eauto.
Qed.

(** One turn of the inner loop that reads a missing entry raises
    [KeyError]. *)
Lemma pr_body_miss (damping N : Q) (current new : dict Q) (pg key : page)
      (links : list page) :
  ~ In key (keys current) -> links = [] \/ mem pg links = true ->
  pr_body damping N current pg new (key, links) = Raise KeyError.
Proof.
  intros Hout Hread. unfold pr_body. rewrite (dict_get_miss current key Hout).
  destruct links as [|l ls]; [reflexivity|].
  destruct Hread as [Hread|Hread]; [discriminate|]. now rewrite bind_Ok, Hread.
Qed.

(** The inner loop of [calculate_pr] ends well, having found every entry
    it reads, or raises [KeyError], an entry it reads missing. *)
Lemma calculate_pr_inner_outcome (items : corpus_t) (damping N : Q) (current : dict Q)
      (ks : list page) (pg : page) (f : page -> Q) :
  NoDup ks -> In pg ks -> ~ N == 0 ->
  (for_each items (pr_body damping N current pg) (tabulate ks f) = Raise KeyError
   /\ exists key links,
        In (key, links) items /\ ~ In key (keys current)
        /\ (links = [] \/ mem pg links = true))
  \/ (exists f',
        for_each items (pr_body damping N current pg) (tabulate ks f)
        = Ok (tabulate ks f')
        /\ forall key links,
             In (key, links) items -> (links = [] \/ mem pg links = true) ->
             In key (keys current)).
Proof.
  intros Hnd Hpg HN. revert f.
  induction items as [|[key links] items IH]; intros f.
  - right. exists f. split; [reflexivity|]. intros key links [].
  - rewrite for_each_cons.
    assert (Hcase : (~ In key (keys current) /\ (links = [] \/ mem pg links = true))
                    \/ (In key (keys current) \/ (links <> [] /\ mem pg links = false))).
    { destruct (in_dec string_dec key (keys current)) as [Hin|Hout]; [tauto|].
      destruct links as [|l ls]; [tauto|].
      destruct (mem pg (l :: ls)); [tauto|]. right. right. split; [discriminate | reflexivity]. }
    destruct Hcase as [[Hout Hread]|Hfine].
    + left. split; [now rewrite pr_body_miss|]. exists key, links. split; [now left | now split].
    + destruct (pr_body_ok damping N current ks pg f key links Hnd Hpg HN Hfine)
        as [f0 Hf0].
      rewrite Hf0, bind_Ok.
      destruct (IH f0) as [[Hr [k0 [l0 [H1 [H2 H3]]]]]|[f' [Hr Hall]]].
      * left. split; [assumption|]. exists k0, l0. split; [now right | now split].
      * right. exists f'. split; [assumption|].
        intros k0 l0 [[= <- <-]|H] Hread; [|now apply (Hall k0 l0)].
        destruct Hfine as [Hin|[Hne Hm]]; [assumption|].
        destruct Hread; congruence.
Qed.

(** The loops of [calculate_pr] raise [KeyError] when some inner loop
    reads a missing entry. *)
Lemma calculate_pr_outer_miss (corpus : corpus_t) (damping N : Q) (current : dict Q)
      (ks pgs : list page) (f : page -> Q) :
  NoDup ks -> incl pgs ks -> ~ N == 0 ->
  (exists pg key links,
      In pg pgs /\ In (key, links) corpus /\ ~ In key (keys current)
      /\ (links = [] \/ mem pg links = true)) ->
  for_each pgs (fun new pg => for_each corpus (pr_body damping N current pg) new)
    (tabulate ks f)
  = Raise KeyError.
Proof.
  intros Hnd Hincl HN. revert f Hincl.
  induction pgs as [|pg0 pgs IH]; intros f Hincl [pg [key [links [Hpg [Hin [Hout Hread]]]]]];
    [contradiction|].
  loop_step.
  destruct (calculate_pr_inner_outcome corpus damping N current ks pg0 f Hnd
              (Hincl pg0 (or_introl eq_refl)) HN)
    as [[Hr _]|[f' [Hr Hall]]].
  - now rewrite Hr.
  - rewrite Hr, bind_Ok. destruct Hpg as [->|Hpg].
    + exfalso. apply Hout. now apply (Hall key links).
    + apply IH.
      * intros x Hx. apply Hincl. now right.
      * exists pg, key, links. auto.
Qed.

Lemma forallb_false_In {A : Type} (p : A -> bool) (l : list A) :
  forallb p l = false -> exists x, In x l /\ p x = false.
Proof.
  induction l as [|a l IH]; simpl; [discriminate|].
  destruct (p a) eqn:E; simpl.
  - intros H. destruct (IH H) as [x [H1 H2]]. exists x. split; [now right | assumption].
  - intros _. exists a. split; [now left | assumption].
Qed.

(** X8. On a link graph, when the current vector lacks an entry for a
    page of the corpus, [calculate_pr] raises [KeyError]. *)
Theorem calculate_pr_missing_page (corpus : corpus_t) (damping : Q) (current : dict Q) :
  link_graph corpus = true ->
  covers current corpus = false ->
  calculate_pr corpus damping current (len corpus) = Raise KeyError.
Proof.
  intros Hwf Hcov. pose proof (link_graph_keys _ Hwf) as Hnd.
  assert (Hmiss : exists key, In key (keys corpus) /\ ~ In key (keys current)).
  { destruct (forallb_false_In _ _ Hcov) as [key [H1 H2]].
    exists key. split; [assumption | now apply mem_not_In]. }
  destruct Hmiss as [key [Hkey Hout]].
  assert (Hne : corpus <> []) by (intros ->; contradiction).
  destruct (dict_get_has _ _ Hkey) as [links Hget].
  pose proof (dict_get_In _ _ _ Hget) as Hin.
  destruct (link_graph_links _ _ _ Hwf Hin) as [_ Hincl].
  unfold calculate_pr.
  rewrite (dict_of_keys_tabulate _ _ (fun _ => (1 - damping) / len corpus))
    by (auto using pydiv_len).
  rewrite bind_Ok.
  apply (calculate_pr_outer_miss corpus damping (len corpus) current);
    [assumption | apply incl_refl | now apply len_nonzero |].
  destruct links as [|l ls].
  - exists key, key, []. split; [assumption|]. split; [assumption|].
    split; [assumption | now left].
  - exists l, key, (l :: ls). split; [apply Hincl; now left|].
    split; [assumption|]. split; [assumption|]. right. apply mem_In. now left.
Qed.

(** ** More on [iterate_pagerank] *)

Lemma value_at_tabulate_nonneg (ks : list page) (f : page -> Q) (k : page) :
  (forall j, In j ks -> 0 <= f j) -> 0 <= value_at (tabulate ks f) k.
Proof.
  intros Hf. destruct (in_dec string_dec k ks) as [Hin|Hout].
  - rewrite value_at_tabulate by assumption. now apply Hf.
  - unfold value_at. rewrite get_tabulate_miss by assumption. apply Qle_refl.
Qed.

Lemma base_nonneg (corpus : corpus_t) (damping : Q) :
  damping <= 1 -> 0 <= (1 - damping) / len corpus.
Proof.
  intros H. apply Qdiv_nonneg; [lra | apply len_nonneg].
Qed.

(** The vectors of the iteration have no negative entry, and from the
    first relaxation on no entry below [(1 - damping)/N]. *)
Lemma iterate_vec_lower (corpus : corpus_t) (damping : Q) (t : nat) :
  link_graph corpus = true -> corpus <> [] -> 0 <= damping <= 1 ->
  (forall k, 0 <= value_at (iterate_vec corpus damping t) k)
  /\ (forall k, In k (keys corpus) ->
        (1 - damping) / len corpus <= value_at (iterate_vec corpus damping (S t)) k).
Proof.
  intros Hwf Hne [Hd0 Hd1]. pose proof (link_graph_keys _ Hwf) as Hnd.
  assert (Hstep : forall s,
             (forall k, 0 <= value_at (iterate_vec corpus damping s) k) ->
             iterate_vec corpus damping (S s)
             = tabulate (keys corpus)
                 (pr_entry corpus damping (len corpus)
                    (value_at (iterate_vec corpus damping s)))
             /\ forall k, In k (keys corpus) ->
                  (1 - damping) / len corpus
                  <= pr_entry corpus damping (len corpus)
                       (value_at (iterate_vec corpus damping s)) k).
  { intros s Hs. split.
    - pose proof (iterate_vec_step corpus damping s Hwf Hne) as E.
      destruct (iterate_vec_ok corpus damping s Hwf Hne) as [_ Hk].
      rewrite calculate_pr_table in E;
        [now injection E as <- | assumption | | now apply len_nonzero].
      rewrite Hk. apply incl_refl.
    - intros k Hk. rewrite pr_entry_relaxation by assumption.
      now apply relaxation_lower. }
  assert (Hall : forall s, forall k, 0 <= value_at (iterate_vec corpus damping s) k).
  { induction s as [|s IHs]; intros k.
    - destruct (iterate_vec_ok corpus damping 0 Hwf Hne) as [E _].
      simpl relax_n in E. rewrite initial_ranks_table in E by assumption.
      injection E as E. rewrite <- E. apply value_at_tabulate_nonneg.
      intros j _. apply Qdiv_nonneg; [lra | apply len_nonneg].
    - destruct (Hstep s IHs) as [E Hlow]. rewrite E.
      apply value_at_tabulate_nonneg. intros j Hj.
      eapply Qle_trans; [apply (base_nonneg corpus damping Hd1) | now apply Hlow]. }
  split; [apply Hall|].
  intros k Hk. destruct (Hstep t (Hall t)) as [E Hlow].
  rewrite E, value_at_tabulate by assumption. now apply Hlow.
Qed.

Lemma iterate_vec_upper (corpus : corpus_t) (damping : Q) (t : nat) (k : page) :
  link_graph corpus = true -> corpus <> [] -> 0 <= damping <= 1 ->
  In k (keys corpus) ->
  value_at (iterate_vec corpus damping t) k <= 1.
Proof.
  intros Hwf Hne Hd Hk.
  destruct (relax_n_sum corpus damping t Hwf Hne) as [v [Hv [Hkv Hs]]].
  destruct (iterate_vec_ok corpus damping t Hwf Hne) as [Hv' _].
  rewrite Hv in Hv'. injection Hv' as ->.
  rewrite sum_values, Hkv in Hs by (rewrite Hkv; now apply link_graph_keys).
  rewrite <- Hs.
  apply (sum_over_term (keys corpus) (value_at (iterate_vec corpus damping t)));
    [|assumption].
  intros j _. now apply iterate_vec_lower.
Qed.

(** X9. On a link graph with a damping factor of [[0, 1]], every rank
    [iterate_pagerank] returns lies between [(1 - damping)/N] and [1]. *)
Theorem iterate_pagerank_ranks_bounded (u : nat -> Q) (fuel : nat)
        (corpus : corpus_t) (damping : Q) (pos : nat) (v : dict Q) (pos' : nat) :
  link_graph corpus = true ->
  corpus <> [] ->
  0 <= damping <= 1 ->
  iterate_pagerank u fuel corpus damping pos = Ok (v, pos') ->
  forall k, In k (keys corpus) ->
    (1 - damping) / len corpus <= value_at v k <= 1.
Proof.
  intros Hwf Hne Hd Hrun k Hk.
  apply iterate_pagerank_relax_n in Hrun. destruct Hrun as [j [Hj _]].
  destruct (iterate_vec_ok corpus damping (S j) Hwf Hne) as [Hv _].
  rewrite Hj in Hv. injection Hv as ->. split.
  - now apply iterate_vec_lower.
  - now apply iterate_vec_upper.
Qed.

Lemma relaxation_no_damping (corpus : corpus_t) (x : page -> Q) (pg : page) :
  relaxation corpus 0 x pg == 1 / len corpus.
Proof. unfold relaxation, Qdiv. ring. Qed.

(** X10. With the damping factor [0], [iterate_pagerank] stops at the
    first convergence test, whatever page is drawn, and returns the rank
    [1/N] at every page. *)
Theorem iterate_pagerank_no_damping (u : nat -> Q) (fuel : nat) (corpus : corpus_t)
        (pos : nat) :
  distinct (keys corpus) = true ->
  corpus <> [] ->
  tape_ok u ->
  exists v,
    iterate_pagerank u (S fuel) corpus 0 pos = Ok (v, S pos)
    /\ keys v = keys corpus
    /\ forall k, In k (keys corpus) -> value_at v k == 1 / len corpus.
Proof.
  intros Hnd Hne Hu. apply distinct_NoDup in Hnd.
  pose proof (len_nonzero _ Hne) as HN.
  set (x := tabulate (keys corpus) (fun _ : page => 1 / len corpus)).
  assert (Hkx : keys x = keys corpus) by apply keys_tabulate.
  destruct (calculate_pr_values corpus 0 x Hnd Hne Hkx) as [y [Hy [Hky Hvy]]].
  assert (Hks : keys x <> [])
    by (rewrite Hkx; destruct corpus; [congruence | discriminate]).
  destruct (choice_ok u (keys x) pos Hu Hks) as [i [Hnth Hc]].
  pose proof (nth_error_In _ _ Hnth) as Hi.
  exists y. split; [|split; [assumption|]].
  - unfold iterate_pagerank, bindR at 1, lift at 1.
    rewrite pydiv_len by assumption.
    unfold bindR at 1, lift at 1. fold (initial_ranks corpus).
    rewrite initial_ranks_table by assumption. fold x.
    unfold bindR at 1, lift at 1. rewrite Hy, iterate_loop_S.
    rewrite (has_not_converged_at u x y pos i); [|assumption|assumption|].
    + destruct (Qlt_le_dec TOLERANCE _) as [Hgt|_]; [|reflexivity].
      exfalso. rewrite Hkx in Hi.
      rewrite (Hvy i Hi), relaxation_no_damping in Hgt.
      unfold x in Hgt. rewrite value_at_tabulate in Hgt by assumption.
      setoid_replace (1 / len corpus - 1 / len corpus) with 0 in Hgt
        by (unfold Qdiv; ring).
      revert Hgt. vm_compute. discriminate.
    + now rewrite Hky, <- Hkx.
  - intros k Hk. rewrite (Hvy k Hk). apply relaxation_no_damping.
Qed.

(** ** More on [sample_pagerank] *)

(** What [sample_pagerank] returns for [n >= 1]: the table of the counts
    of some [n] pages of the corpus, over [n]. *)
Lemma sample_pagerank_table (u : nat -> Q) (corpus : corpus_t) (damping : Q)
      (n : Z) (pos : nat) :
  link_graph corpus = true -> corpus <> [] -> (1 <= n)%Z -> tape_ok u ->
  exists samples,
    List.length samples = Z.to_nat n
    /\ incl samples (keys corpus)
    /\ sample_pagerank u corpus damping n pos
       = Ok (tabulate (keys corpus) (fun k => times samples k / inject_Z n),
             (S pos + Z.to_nat n)%nat).
Proof.
  intros Hwf Hne Hn Hu. pose proof (link_graph_keys _ Hwf) as Hnd.
  assert (Hks : keys corpus <> []) by (destruct corpus; [congruence | discriminate]).
  destruct (choice_ok u (keys corpus) pos Hu Hks) as [start [Hnth Hc]].
  pose proof (nth_error_In _ _ Hnth) as Hstart.
  destruct (sample_loop_walk u corpus damping Hwf (Z.to_nat n) start [] (S pos) Hstart)
    as [samples [Hloop [Hlen [Hincl _]]]].
  simpl app in Hloop.
  exists samples. split; [assumption|]. split; [assumption|].
  unfold sample_pagerank, bindR at 1. rewrite Hc.
  unfold bindR at 1. rewrite Hloop. unfold lift.
  rewrite (dict_of_keys_tabulate _ _ (fun k => times samples k / inject_Z n));
    [reflexivity | assumption |].
  intros k _. apply pydiv_ok.
  change 0 with (inject_Z 0). rewrite inject_Z_injective. lia.
Qed.

(** X11. For [n >= 1] and a damping factor of [[0, 1]] on a link graph,
    every rank [sample_pagerank] returns is [c / n] for a whole number
    [c] of [0 .. n], so a number of [[0, 1]]. *)
Theorem sample_pagerank_ranks_bounded (u : nat -> Q) (corpus : corpus_t)
        (damping : Q) (n : Z) (pos : nat) :
  link_graph corpus = true ->
  corpus <> [] ->
  0 <= damping <= 1 ->
  (1 <= n)%Z ->
  tape_ok u ->
  exists pr pos',
    sample_pagerank u corpus damping n pos = Ok (pr, pos')
    /\ forall k, In k (keys corpus) ->
         exists c : nat,
           (Z.of_nat c <= n)%Z
           /\ value_at pr k = inject_Z (Z.of_nat c) / inject_Z n
           /\ 0 <= value_at pr k <= 1.
Proof.
  intros Hwf Hne _ Hn Hu.
  destruct (sample_pagerank_table u corpus damping n pos Hwf Hne Hn Hu)
    as [samples [Hlen [_ Hrun]]].
  eexists. eexists. split; [exact Hrun|].
  intros k Hk. exists (count_occ string_dec samples k).
  pose proof (count_occ_bound string_dec k samples) as Hb.
  assert (Hc : (Z.of_nat (count_occ string_dec samples k) <= n)%Z)
    by (unfold page in *; lia).
  assert (Hn0 : 0 < inject_Z n).
  { change 0 with (inject_Z 0). rewrite <- Zlt_Qlt. lia. }
  split; [assumption|]. rewrite value_at_tabulate by assumption.
  split; [reflexivity|]. unfold times. split.
  - apply Qdiv_nonneg; [|lra].
    change 0 with (inject_Z 0). rewrite <- Zle_Qle. lia.
  - apply Qle_shift_div_r; [assumption|]. rewrite Qmult_1_l. now rewrite <- Zle_Qle.
Qed.

(** ** More on [has_not_converged] *)

(** X12. When the two vectors differ by at most [TOLERANCE] at every
    page, [has_not_converged] answers [False] whatever page it draws;
    when they differ by more than [TOLERANCE] at every page, [True]. *)
Theorem has_not_converged_unanimous (u : nat -> Q) (previous current : dict Q)
        (pos : nat) :
  tape_ok u ->
  previous <> [] ->
  incl (keys previous) (keys current) ->
  ((forall k, In k (keys previous) ->
      Qabs (value_at current k - value_at previous k) <= TOLERANCE) ->
   has_not_converged u previous current pos = Ok (false, S pos))
  /\ ((forall k, In k (keys previous) ->
         TOLERANCE < Qabs (value_at current k - value_at previous k)) ->
      has_not_converged u previous current pos = Ok (true, S pos)).
Proof.
  intros Hu Hne Hincl.
  assert (Hk : keys previous <> []) by (destruct previous; [congruence | discriminate]).
  destruct (choice_ok u (keys previous) pos Hu Hk) as [i [Hnth Hc]].
  pose proof (nth_error_In _ _ Hnth) as Hi.
  rewrite (has_not_converged_at u previous current pos i Hc Hi (Hincl i Hi)).
  split; intros Hall; specialize (Hall i Hi);
    destruct (Qlt_le_dec TOLERANCE _) as [H|H]; try reflexivity; exfalso; lra.
Qed.

(** X13. [has_not_converged] raises [IndexError] when the previous
    vector is empty, and [KeyError] when the page it draws has no entry
    in the current vector. *)
Theorem has_not_converged_errors (u : nat -> Q) (previous current : dict Q)
        (pos : nat) (i : page) :
  nth_error (keys previous) (choice_index (u pos) (keys previous)) = Some i ->
  ~ In i (keys current) ->
  has_not_converged u [] current pos = Raise IndexError
  /\ has_not_converged u previous current pos = Raise KeyError.
Proof.
  intros Hnth Hout. split; [reflexivity|].
  unfold has_not_converged, bindR at 1.
  assert (Hc : choice u (keys previous) pos = Ok (i, S pos)).
  { destruct (keys previous) as [|k ks] eqn:E.
    - destruct (choice_index (u pos) (@nil page)); discriminate.
    - unfold choice, bindR, random. now rewrite Hnth. }
  rewrite Hc. unfold bindR, lift. now rewrite (dict_get_miss current i Hout).
Qed.

(** ** From [crawl] to the two estimators *)

Lemma crawl_directory_empty (listing : list (page * list page)) :
  existsb (fun '(filename, _) => endswith filename ".html") listing = false ->
  crawl_directory listing = [].
Proof.
  intros H. rewrite crawl_directory_html.
  replace (html_files listing) with (@nil (page * list page)); [reflexivity|].
  unfold html_files. induction listing as [|[f l] listing IH]; [reflexivity|].
  simpl in H |- *. apply orb_false_iff in H. destruct H as [H1 H2].
  rewrite H1. now apply IH.
Qed.

Lemma crawl_directory_nonempty (listing : list (page * list page)) :
  existsb (fun '(filename, _) => endswith filename ".html") listing = true ->
  crawl_directory listing <> [].
Proof.
  intros H. apply existsb_exists in H. destruct H as [[f l] [Hin Hf]].
  assert (Hk : In f (keys (crawl_directory listing))).
  { rewrite crawl_directory_html, crawl_keys_In. apply html_files_In.
    split; [|assumption]. unfold keys. change f with (fst (f, l)). now apply in_map. }
  intros E. now rewrite E in Hk.
Qed.

(** X15. What [main] computes on a directory with an HTML file: the
    corpus of [crawl] is accepted by both estimators, called with
    [DAMPING] and [SAMPLES] as [main] calls them; the sampling returns
    ranks of sum [1], and the iteration stops, within a number of steps
    that does not depend on the random source, on ranks of sum [1]. *)
Theorem crawl_then_estimate (listing : list (page * list page)) :
  existsb (fun '(filename, _) => endswith filename ".html") listing = true ->
  (forall u pos, tape_ok u ->
     exists ranks pos',
       sample_pagerank u (crawl_directory listing) DAMPING SAMPLES pos
       = Ok (ranks, pos')
       /\ keys ranks = keys (crawl_directory listing)
       /\ Qsum (values ranks) == 1)
  /\ exists fuel, forall u pos, tape_ok u ->
       exists ranks pos',
         iterate_pagerank u fuel (crawl_directory listing) DAMPING pos
         = Ok (ranks, pos')
         /\ keys ranks = keys (crawl_directory listing)
         /\ Qsum (values ranks) == 1.
Proof.
  intros Hhtml. pose proof (crawl_directory_nonempty listing Hhtml) as Hne.
  assert (Hwf : link_graph (crawl_directory listing) = true)
    by (rewrite crawl_directory_html; apply crawl_link_graph).
  set (corpus := crawl_directory listing) in *.
  pose proof (link_graph_keys _ Hwf) as Hnd.
  split.
  - intros u pos Hu.
    assert (Hn : (1 <= SAMPLES)%Z) by (unfold SAMPLES; lia).
    destruct (sample_pagerank_table u corpus DAMPING SAMPLES pos Hwf Hne Hn Hu)
      as [samples [Hlen [Hincl Hrun]]].
    eexists. eexists. split; [exact Hrun|]. split; [apply keys_tabulate|].
    rewrite values_tabulate.
    rewrite (sum_over_ext _ _ (fun k => / inject_Z SAMPLES * times samples k))
      by (intros k _; unfold Qdiv; ring).
    rewrite sum_over_scale, times_sum by assumption.
    unfold len. rewrite Hlen, Z2Nat.id by lia. reflexivity.
  - assert (Hd : 0 <= DAMPING < 1) by (unfold DAMPING; split; [discriminate | reflexivity]).
    destruct (iterate_pagerank_fuel corpus DAMPING Hwf Hne Hd) as [fuel Hfuel].
    exists fuel. intros u pos Hu. destruct (Hfuel u pos Hu) as [v [pos' Hrun]].
    exists v, pos'. split; [assumption|].
    pose proof Hrun as Hj. apply iterate_pagerank_relax_n in Hj.
    destruct Hj as [j [Hj _]].
    destruct (relax_n_sum corpus DAMPING (S j) Hwf Hne) as [w [Hw [Hkw Hsw]]].
    rewrite Hj in Hw. injection Hw as <-. now split.
Qed.

(** X16. On a directory without HTML file [crawl] returns the empty
    corpus, on which the first call of [main], to [sample_pagerank],
    raises [IndexError]. *)
Theorem crawl_empty_directory (u : nat -> Q) (listing : list (page * list page))
        (pos : nat) :
  existsb (fun '(filename, _) => endswith filename ".html") listing = false ->
  crawl_directory listing = []
  /\ sample_pagerank u (crawl_directory listing) DAMPING SAMPLES pos
     = Raise IndexError.
Proof.
  intros H. pose proof (crawl_directory_empty listing H) as E.
  split; [assumption|]. now rewrite E.
Qed.

(** ** Runs on the small corpora *)

Lemma tape_half_ok : tape_ok tape_half.
Proof. intros i. unfold tape_half. split; lra. Qed.

Lemma tape_low_high_ok : tape_ok tape_low_high.
Proof. intros [|i]; unfold tape_low_high; split; lra. Qed.

Lemma contribution_ext (corpus : corpus_t) (x y : page -> Q) (k pg : page) :
  x k == y k -> contribution corpus x k pg == contribution corpus y k pg.
Proof.
  intros E. unfold contribution. destruct (links_of corpus k) as [|l ls].
  - now rewrite E.
  - destruct (mem pg (l :: ls)); [now rewrite E | reflexivity].
Qed.

Lemma relaxation_ext (corpus : corpus_t) (damping : Q) (x y : page -> Q) (pg : page) :
  (forall k, In k (keys corpus) -> x k == y k) ->
  relaxation corpus damping x pg == relaxation corpus damping y pg.
Proof.
  intros E. unfold relaxation.
  rewrite (sum_over_ext _ _ (fun k => contribution corpus y k pg)); [reflexivity|].
  intros k Hk. now apply contribution_ext, E.
Qed.

Lemma agrees_step (corpus : corpus_t) (damping : Q) (v : dict Q) (f g : page -> Q) :
  NoDup (keys corpus) -> corpus <> [] -> agrees corpus v f ->
  (forall k, In k (keys corpus) -> relaxation corpus damping f k == g k) ->
  exists v', calculate_pr corpus damping v (len corpus) = Ok v' /\ agrees corpus v' g.
Proof.
  intros Hnd Hne [Hk Hv] Hg.
  destruct (calculate_pr_values corpus damping v Hnd Hne Hk) as [v' [Hc [Hk' Hv']]].
  exists v'. split; [assumption|]. split; [assumption|].
  intros k Hin. rewrite Hv' by assumption. rewrite <- Hg by assumption.
  now apply relaxation_ext.
Qed.

Lemma hub_relaxation (b : bool) (k : page) :
  In k (keys corpus_hub) ->
  relaxation corpus_hub 1 (hub_osc b) k == hub_osc (negb b) k.
Proof.
  destruct b; intros [<-|[<-|[<-|[]]]]; vm_compute; reflexivity.
Qed.

Lemma hub_gap (b : bool) (k : page) :
  In k (keys corpus_hub) ->
  TOLERANCE < Qabs (hub_osc (negb b) k - hub_osc b k).
Proof.
  destruct b; intros [<-|[<-|[<-|[]]]]; vm_compute; reflexivity.
Qed.

(** On [corpus_hub] at damping [1] the loop never stops. *)
Lemma hub_loop (u : nat -> Q) :
  tape_ok u ->
  forall fuel b x y pos,
    agrees corpus_hub x (hub_osc b) -> agrees corpus_hub y (hub_osc (negb b)) ->
    iterate_loop u fuel corpus_hub 1 (len corpus_hub) x y pos = OutOfFuel.
Proof.
  intros Hu. induction fuel as [|fuel IH]; intros b x y pos Hx Hy; [reflexivity|].
  rewrite iterate_loop_S.
  destruct Hx as [Hkx Hvx]. pose proof Hy as [Hky Hvy].
  assert (Hks : keys x <> []) by (rewrite Hkx; discriminate).
  destruct (choice_ok u (keys x) pos Hu Hks) as [i [Hnth Hc]].
  pose proof (nth_error_In _ _ Hnth) as Hi.
  rewrite (has_not_converged_at u x y pos i) by (rewrite ?Hky, <- ?Hkx; assumption).
  rewrite Hkx in Hi.
  destruct (Qlt_le_dec TOLERANCE _) as [_|Hle].
  - destruct (agrees_step corpus_hub 1 y (hub_osc (negb b)) (hub_osc b))
      as [y' [Hc' Hy']].
    + repeat constructor; simpl; intuition discriminate.
    + discriminate.
    + assumption.
    + intros k Hk. rewrite hub_relaxation by assumption. now rewrite negb_involutive.
    + rewrite Hc'. apply (IH (negb b)); [assumption|]. now rewrite negb_involutive.
  - exfalso. pose proof (hub_gap b i Hi) as Hgap.
    rewrite (Hvx i Hi), (Hvy i Hi) in Hle. lra.
Qed.

Local Open Scope string_scope.

(** C8 (counterexample). [corpus_hub] is a link graph and [1] a damping
    factor of [[0, 1]], and there the loop of [iterate_pagerank] never
    stops: whatever the random source yields, no fuel is enough. *)
Lemma iterate_pagerank_hub_diverges :
  link_graph corpus_hub = true
  /\ 0 <= 1 <= 1
  /\ forall u fuel pos,
       tape_ok u -> iterate_pagerank u fuel corpus_hub 1 pos = OutOfFuel.
Proof.
  split; [reflexivity|]. split; [split; discriminate|].
  intros u fuel pos Hu.
  assert (Hnd : NoDup (keys corpus_hub))
    by (repeat constructor; simpl; intuition discriminate).
  assert (Hne : corpus_hub <> []) by discriminate.
  unfold iterate_pagerank, bindR at 1, lift at 1.
  rewrite pydiv_len by assumption.
  unfold bindR at 1, lift at 1. fold (initial_ranks corpus_hub).
  rewrite initial_ranks_table by assumption.
  set (x := tabulate (keys corpus_hub) (fun _ => 1 / len corpus_hub)).
  assert (Hx : agrees corpus_hub x (hub_osc true)).
  { split; [apply keys_tabulate|]. intros k Hk. unfold x.
    rewrite value_at_tabulate by assumption. reflexivity. }
  destruct (agrees_step corpus_hub 1 x (hub_osc true) (hub_osc false) Hnd Hne Hx)
    as [y [Hc Hy]].
  { intros k Hk. now apply (hub_relaxation true). }
  unfold bindR at 1, lift at 1. rewrite Hc.
  now apply (hub_loop u Hu fuel true).
Qed.

(** C5 (counterexample). Two runs of [iterate_pagerank] on the same
    graph and damping factor, with random sources that draw different
    pages in the convergence test, return different vectors: the first
    stops after one test, the second after two. *)
Lemma iterate_pagerank_depends_on_draws :
  link_graph corpus_fan = true
  /\ tape_ok tape_half /\ tape_ok tape_low_high
  /\ iterate_pagerank tape_half 3 corpus_fan DAMPING 0%nat = Ok (fan_ranks_1, 1%nat)
  /\ iterate_pagerank tape_low_high 3 corpus_fan DAMPING 0%nat = Ok (fan_ranks_2, 2%nat)
  /\ ~ value_at fan_ranks_1 "A" == value_at fan_ranks_2 "A".
Proof.
  split; [reflexivity|]. split; [apply tape_half_ok|]. split; [apply tape_low_high_ok|].
  split; [vm_compute; reflexivity|]. split; [vm_compute; reflexivity|].
  vm_compute. discriminate.
Qed.

(** C9 (counterexample). On [corpus_fan] the convergence test that draws
    the page ["B"] reports that the first relaxation of the uniform
    vector has converged, and one more relaxation moves the entry of the
    page ["A"] by more than [TOLERANCE]. *)
Lemma single_page_test_misses :
  link_graph corpus_fan = true
  /\ relax_n corpus_fan DAMPING 0 = Ok (iterate_vec corpus_fan DAMPING 0)
  /\ calculate_pr corpus_fan DAMPING (iterate_vec corpus_fan DAMPING 0)
       (len corpus_fan) = Ok fan_ranks_1
  /\ has_not_converged tape_half (iterate_vec corpus_fan DAMPING 0) fan_ranks_1 0%nat
     = Ok (false, 1%nat)
  /\ calculate_pr corpus_fan DAMPING fan_ranks_1 (len corpus_fan) = Ok fan_ranks_2
  /\ 1 # 1000 < Qabs (value_at fan_ranks_2 "A" - value_at fan_ranks_1 "A").
Proof.
  repeat split; vm_compute; reflexivity.
Qed.

(** The scenarios of the specification. *)

Example transition_model_sink :
  transition_model [("A", []); ("B", ["A"])] "A" DAMPING
  = Ok [("A", 1 # 2); ("B", 1 # 2)].
Proof. vm_compute. reflexivity. Qed.

Example transition_model_pair :
  transition_model corpus_pair "A" DAMPING
  = Ok [("A", 15 # 200); ("B", 18500 # 20000)].
Proof. vm_compute. reflexivity. Qed.

Example iterate_pagerank_single_page :
  exists v,
    iterate_pagerank tape_half 1 [("A", [])] DAMPING 0%nat = Ok ([("A", v)], 1%nat)
    /\ v == 1.
Proof. eexists. split; vm_compute; reflexivity. Qed.

Example sample_pagerank_single_page :
  sample_pagerank tape_half [("A", [])] DAMPING 1 0%nat = Ok ([("A", 1 # 1)], 2%nat).
Proof. vm_compute. reflexivity. Qed.

Example iterate_pagerank_sink_ranks_higher :
  exists v,
    iterate_pagerank tape_half 20 [("A", []); ("B", ["A"])] DAMPING 0%nat
    = Ok (v, 8%nat)
    /\ value_at v "B" < value_at v "A".
Proof. eexists. split; vm_compute; reflexivity. Qed.

(** C6 (counterexample). A damping factor outside [[0, 1]] is not
    refused: with damping [2], [transition_model] returns a dict whose
    entry at ["A"] is negative. *)
Lemma transition_model_accepts_any_damping :
  link_graph corpus_pair = true
  /\ transition_model corpus_pair "A" 2 = Ok [("A", -1 # 2); ("B", 3 # 2)].
Proof.
  split; vm_compute; reflexivity.
Qed.

(** ** The theorems at work on the small corpora *)

Lemma DAMPING_in_unit : 0 <= DAMPING <= 1.
Proof. unfold DAMPING. split; discriminate. Qed.

Lemma transition_model_distribution_witness :
  link_graph corpus_pair = true
  /\ dict_get corpus_pair "A" = Ok ["B"]
  /\ transition_model corpus_pair "A" DAMPING
     = Ok (tabulate (keys corpus_pair)
             (transition_distribution corpus_pair ["B"] DAMPING)).
Proof.
  split; [reflexivity|]. split; [reflexivity|].
  apply (transition_model_distribution corpus_pair "A" ["B"] DAMPING);
    reflexivity.
Defined.

Lemma calculate_pr_relaxation_witness :
  distinct (keys corpus_pair) = true
  /\ corpus_pair <> []
  /\ covers pair_uniform corpus_pair = true
  /\ exists new,
      calculate_pr corpus_pair DAMPING pair_uniform (len corpus_pair) = Ok new
      /\ keys new = keys corpus_pair
      /\ forall pg, In pg (keys corpus_pair) ->
           exists v, dict_get new pg = Ok v
                     /\ v == relaxation corpus_pair DAMPING (value_at pair_uniform) pg.
Proof.
  split; [reflexivity|]. split; [discriminate|]. split; [reflexivity|].
  apply (calculate_pr_relaxation corpus_pair DAMPING pair_uniform);
    [reflexivity | discriminate | reflexivity].
Defined.

Lemma sample_pagerank_ranks_witness :
  link_graph corpus_pair = true
  /\ corpus_pair <> []
  /\ 0 <= DAMPING <= 1
  /\ (1 <= 2)%Z
  /\ tape_ok tape_half
  /\ exists starting_page samples pr,
      choice tape_half (keys corpus_pair) 0%nat = Ok (starting_page, 1%nat)
      /\ walk tape_half corpus_pair DAMPING starting_page 1%nat samples
      /\ Z.of_nat (List.length samples) = 2%Z
      /\ sample_pagerank tape_half corpus_pair DAMPING 2 0%nat
         = Ok (pr, (1 + Z.to_nat 2)%nat)
      /\ pr = tabulate (keys corpus_pair) (fun k => times samples k / inject_Z 2)
      /\ Z.of_nat (list_sum (map (count_occ string_dec samples) (keys corpus_pair)))
         = 2%Z.
Proof.
  split; [reflexivity|]. split; [discriminate|]. split; [exact DAMPING_in_unit|].
  split; [lia|]. split; [exact tape_half_ok|].
  apply (sample_pagerank_ranks tape_half corpus_pair DAMPING 2 0%nat);
    [reflexivity | discriminate | exact DAMPING_in_unit | lia | exact tape_half_ok].
Defined.

Lemma has_not_converged_single_page_witness :
  tape_ok tape_half
  /\ pair_uniform <> []
  /\ incl (keys pair_uniform) (keys pair_uniform)
  /\ exists i b,
      nth_error (keys pair_uniform) (choice_index (tape_half 0%nat) (keys pair_uniform))
      = Some i
      /\ has_not_converged tape_half pair_uniform pair_uniform 0%nat = Ok (b, 1%nat)
      /\ (b = false <->
          Qabs (value_at pair_uniform i - value_at pair_uniform i) <= 1 # 1000)
      /\ forall previous' current',
           keys previous' = keys pair_uniform ->
           In i (keys current') ->
           value_at previous' i == value_at pair_uniform i ->
           value_at current' i == value_at pair_uniform i ->
           has_not_converged tape_half previous' current' 0%nat = Ok (b, 1%nat).
Proof.
  split; [exact tape_half_ok|]. split; [discriminate|]. split; [apply incl_refl|].
  apply (has_not_converged_single_page tape_half pair_uniform pair_uniform 0%nat);
    [exact tape_half_ok | discriminate | apply incl_refl].
Defined.

Lemma iterate_pagerank_result_witness :
  iterate_pagerank tape_half 3 corpus_fan DAMPING 0%nat = Ok (fan_ranks_1, 1%nat)
  /\ exists k, relax_n corpus_fan DAMPING (S k) = Ok fan_ranks_1
               /\ 1%nat = (0 + S k)%nat.
Proof.
  split; [vm_compute; reflexivity|].
  apply (iterate_pagerank_result tape_half 3 corpus_fan DAMPING 0%nat fan_ranks_1 1%nat).
  vm_compute. reflexivity.
Defined.

Lemma core_functions_errors_witness :
  tape_ok tape_half
  /\ transition_model corpus_pair "C" 2 = Raise KeyError
  /\ sample_pagerank tape_half corpus_pair 2 0 0%nat = Raise ZeroDivisionError
  /\ sample_pagerank tape_half [] 2 0 0%nat = Raise IndexError
  /\ iterate_pagerank tape_half 3 [] 2 0%nat = Raise ZeroDivisionError.
Proof.
  split; [exact tape_half_ok|].
  pose proof (core_functions_errors tape_half corpus_pair "C" 2 0 3 0 tape_half_ok)
    as [Hkey [_ [_ [Hzero _]]]].
  pose proof (core_functions_errors tape_half [] "C" 2 0 3 0 tape_half_ok)
    as [_ [Hindex [Hdiv _]]].
  split; [apply Hkey; simpl; intuition discriminate|].
  split; [apply Hzero; [discriminate | reflexivity]|].
  split; [now apply Hindex | now apply Hdiv].
Defined.

Lemma transition_model_is_distribution_witness :
  link_graph corpus_pair = true
  /\ In "A" (keys corpus_pair)
  /\ 0 <= DAMPING <= 1
  /\ exists tm,
      transition_model corpus_pair "A" DAMPING = Ok tm
      /\ keys tm = keys corpus_pair
      /\ NoDup (keys tm)
      /\ (forall k v, In (k, v) tm -> 0 <= v)
      /\ Qabs (Qsum (values tm) - 1) <= 1 # 1000000000.
Proof.
  split; [reflexivity|]. split; [now left|]. split; [exact DAMPING_in_unit|].
  apply (transition_model_is_distribution corpus_pair "A" DAMPING);
    [reflexivity | now left | exact DAMPING_in_unit].
Defined.

Lemma iterate_pagerank_terminates_witness :
  link_graph corpus_pair = true
  /\ corpus_pair <> []
  /\ 0 <= DAMPING <= 99 # 100
  /\ exists fuel, forall u pos,
      tape_ok u ->
      exists v pos', iterate_pagerank u fuel corpus_pair DAMPING pos = Ok (v, pos').
Proof.
  split; [reflexivity|]. split; [discriminate|].
  split; [split; discriminate|].
  apply (iterate_pagerank_terminates corpus_pair DAMPING);
    [reflexivity | discriminate | split; discriminate].
Defined.

Lemma calculate_pr_near_fixed_point_witness :
  link_graph corpus_pair = true
  /\ corpus_pair <> []
  /\ 0 <= DAMPING <= 1
  /\ keys pair_uniform = keys corpus_pair
  /\ calculate_pr corpus_pair DAMPING pair_uniform (len corpus_pair)
     = Ok (iterate_vec corpus_pair DAMPING 1)
  /\ distance (keys corpus_pair) (value_at (iterate_vec corpus_pair DAMPING 1))
       (value_at pair_uniform) <= 1 # 1000
  /\ exists new,
      calculate_pr corpus_pair DAMPING (iterate_vec corpus_pair DAMPING 1)
        (len corpus_pair) = Ok new
      /\ keys new = keys corpus_pair
      /\ forall k, In k (keys corpus_pair) ->
           Qabs (value_at new k - value_at (iterate_vec corpus_pair DAMPING 1) k)
           <= 1 # 1000.
Proof.
  split; [reflexivity|]. split; [discriminate|]. split; [exact DAMPING_in_unit|].
  split; [reflexivity|]. split; [vm_compute; reflexivity|].
  split; [vm_compute; discriminate|].
  apply (calculate_pr_near_fixed_point corpus_pair DAMPING pair_uniform
           (iterate_vec corpus_pair DAMPING 1));
    [reflexivity | discriminate | exact DAMPING_in_unit | reflexivity
    | vm_compute; reflexivity | vm_compute; discriminate].
Defined.

Lemma calculate_pr_keeps_mass_witness :
  link_graph corpus_pair = true
  /\ corpus_pair <> []
  /\ keys pair_uniform = keys corpus_pair
  /\ Qsum (values pair_uniform) == 1
  /\ exists new,
      calculate_pr corpus_pair DAMPING pair_uniform (len corpus_pair) = Ok new
      /\ keys new = keys corpus_pair
      /\ Qsum (values new) == 1.
Proof.
  split; [reflexivity|]. split; [discriminate|]. split; [reflexivity|].
  split; [reflexivity|].
  apply (calculate_pr_keeps_mass corpus_pair DAMPING pair_uniform);
    [reflexivity | discriminate | reflexivity | reflexivity].
Defined.

(** ** More runs *)

Example crawl_directory_small :
  crawl_directory listing_small = [("1.html", ["2.html"]); ("2.html", ["1.html"])].
Proof. vm_compute. reflexivity. Qed.

Lemma crawl_directory_links_witness :
  distinct (keys listing_small) = true
  /\ In ("1.html", ["2.html"; "1.html"; "notes.txt"; "2.html"]) listing_small
  /\ endswith "1.html" ".html" = true
  /\ (In "2.html" (links_of (crawl_directory listing_small) "1.html")
      <-> In "2.html" ["2.html"; "1.html"; "notes.txt"; "2.html"]
          /\ "2.html" <> "1.html"
          /\ In "2.html" (keys listing_small)
          /\ endswith "2.html" ".html" = true).
Proof.
  split; [reflexivity|]. split; [now left|]. split; [reflexivity|].
  apply (crawl_directory_links listing_small "1.html"
           ["2.html"; "1.html"; "notes.txt"; "2.html"] "2.html");
    [reflexivity | now left | reflexivity].
Defined.

Lemma transition_model_dangling_link_witness :
  distinct (keys corpus_dangling) = true
  /\ dict_get corpus_dangling "A" = Ok ["B"; "X"]
  /\ dangling corpus_dangling ["B"; "X"] = true
  /\ transition_model corpus_dangling "A" DAMPING = Raise KeyError.
Proof.
  split; [reflexivity|]. split; [reflexivity|]. split; [reflexivity|].
  apply (transition_model_dangling_link corpus_dangling "A" ["B"; "X"] DAMPING);
    reflexivity.
Defined.

Lemma transition_model_bounds_witness :
  link_graph corpus_pair = true
  /\ In "A" (keys corpus_pair)
  /\ 0 <= DAMPING <= 1
  /\ exists tm,
      transition_model corpus_pair "A" DAMPING = Ok tm
      /\ forall k, In k (keys corpus_pair) ->
           (1 - DAMPING) / len corpus_pair <= value_at tm k <= 1.
Proof.
  split; [reflexivity|]. split; [now left|]. split; [exact DAMPING_in_unit|].
  apply (transition_model_bounds corpus_pair "A" DAMPING);
    [reflexivity | now left | exact DAMPING_in_unit].
Defined.

Lemma calculate_pr_lower_bound_witness :
  distinct (keys corpus_pair) = true
  /\ corpus_pair <> []
  /\ covers pair_skewed corpus_pair = true
  /\ nonneg pair_skewed = true
  /\ 0 <= DAMPING
  /\ exists new,
      calculate_pr corpus_pair DAMPING pair_skewed (len corpus_pair) = Ok new
      /\ forall pg, In pg (keys corpus_pair) ->
           (1 - DAMPING) / len corpus_pair <= value_at new pg.
Proof.
  split; [reflexivity|]. split; [discriminate|]. split; [reflexivity|].
  split; [reflexivity|]. split; [apply DAMPING_in_unit|].
  apply (calculate_pr_lower_bound corpus_pair DAMPING pair_skewed);
    [reflexivity | discriminate | reflexivity | reflexivity | apply DAMPING_in_unit].
Defined.

Lemma calculate_pr_missing_page_witness :
  link_graph corpus_pair = true
  /\ covers pair_partial corpus_pair = false
  /\ calculate_pr corpus_pair DAMPING pair_partial (len corpus_pair) = Raise KeyError.
Proof.
  split; [reflexivity|]. split; [reflexivity|].
  apply (calculate_pr_missing_page corpus_pair DAMPING pair_partial); reflexivity.
Defined.

Lemma iterate_pagerank_ranks_bounded_witness :
  link_graph corpus_fan = true
  /\ corpus_fan <> []
  /\ 0 <= DAMPING <= 1
  /\ iterate_pagerank tape_half 3 corpus_fan DAMPING 0%nat = Ok (fan_ranks_1, 1%nat)
  /\ forall k, In k (keys corpus_fan) ->
       (1 - DAMPING) / len corpus_fan <= value_at fan_ranks_1 k <= 1.
Proof.
  split; [reflexivity|]. split; [discriminate|]. split; [exact DAMPING_in_unit|].
  split; [vm_compute; reflexivity|].
  apply (iterate_pagerank_ranks_bounded tape_half 3 corpus_fan DAMPING 0%nat
           fan_ranks_1 1%nat);
    [reflexivity | discriminate | exact DAMPING_in_unit | vm_compute; reflexivity].
Defined.

Lemma iterate_pagerank_no_damping_witness :
  distinct (keys corpus_fan) = true
  /\ corpus_fan <> []
  /\ tape_ok tape_half
  /\ exists v,
      iterate_pagerank tape_half 1 corpus_fan 0 0%nat = Ok (v, 1%nat)
      /\ keys v = keys corpus_fan
      /\ forall k, In k (keys corpus_fan) -> value_at v k == 1 / len corpus_fan.
Proof.
  split; [reflexivity|]. split; [discriminate|]. split; [exact tape_half_ok|].
  apply (iterate_pagerank_no_damping tape_half 0 corpus_fan 0%nat);
    [reflexivity | discriminate | exact tape_half_ok].
Defined.

Lemma sample_pagerank_ranks_bounded_witness :
  link_graph corpus_pair = true
  /\ corpus_pair <> []
  /\ 0 <= DAMPING <= 1
  /\ (1 <= 2)%Z
  /\ tape_ok tape_half
  /\ exists pr pos',
      sample_pagerank tape_half corpus_pair DAMPING 2 0%nat = Ok (pr, pos')
      /\ forall k, In k (keys corpus_pair) ->
           exists c : nat,
             (Z.of_nat c <= 2)%Z
             /\ value_at pr k = inject_Z (Z.of_nat c) / inject_Z 2
             /\ 0 <= value_at pr k <= 1.
Proof.
  split; [reflexivity|]. split; [discriminate|]. split; [exact DAMPING_in_unit|].
  split; [lia|]. split; [exact tape_half_ok|].
  apply (sample_pagerank_ranks_bounded tape_half corpus_pair DAMPING 2 0%nat);
    [reflexivity | discriminate | exact DAMPING_in_unit | lia | exact tape_half_ok].
Defined.

Lemma has_not_converged_unanimous_witness :
  tape_ok tape_half
  /\ pair_uniform <> []
  /\ incl (keys pair_uniform) (keys pair_skewed)
  /\ ((forall k, In k (keys pair_uniform) ->
         Qabs (value_at pair_skewed k - value_at pair_uniform k) <= TOLERANCE) ->
      has_not_converged tape_half pair_uniform pair_skewed 0%nat = Ok (false, 1%nat))
  /\ ((forall k, In k (keys pair_uniform) ->
         TOLERANCE < Qabs (value_at pair_skewed k - value_at pair_uniform k)) ->
      has_not_converged tape_half pair_uniform pair_skewed 0%nat = Ok (true, 1%nat)).
Proof.
  split; [exact tape_half_ok|]. split; [discriminate|]. split; [apply incl_refl|].
  apply (has_not_converged_unanimous tape_half pair_uniform pair_skewed 0%nat);
    [exact tape_half_ok | discriminate | apply incl_refl].
Defined.

Lemma has_not_converged_errors_witness :
  nth_error (keys pair_uniform) (choice_index (tape_half 0%nat) (keys pair_uniform))
  = Some "B"
  /\ ~ In "B" (keys pair_partial)
  /\ has_not_converged tape_half [] pair_partial 0%nat = Raise IndexError
  /\ has_not_converged tape_half pair_uniform pair_partial 0%nat = Raise KeyError.
Proof.
  assert (H : ~ In "B" (keys pair_partial)) by (simpl; intuition discriminate).
  split; [reflexivity|]. split; [exact H|].
  apply (has_not_converged_errors tape_half pair_uniform pair_partial 0%nat "B");
    [reflexivity | exact H].
Defined.

Lemma crawl_then_estimate_witness :
  existsb (fun '(filename, _) => endswith filename ".html") listing_small = true
  /\ (forall u pos, tape_ok u ->
        exists ranks pos',
          sample_pagerank u (crawl_directory listing_small) DAMPING SAMPLES pos
          = Ok (ranks, pos')
          /\ keys ranks = keys (crawl_directory listing_small)
          /\ Qsum (values ranks) == 1)
  /\ exists fuel, forall u pos, tape_ok u ->
       exists ranks pos',
         iterate_pagerank u fuel (crawl_directory listing_small) DAMPING pos
         = Ok (ranks, pos')
         /\ keys ranks = keys (crawl_directory listing_small)
         /\ Qsum (values ranks) == 1.
Proof.
  split; [reflexivity|].
  apply (crawl_then_estimate listing_small). reflexivity.
Defined.

Lemma crawl_empty_directory_witness :
  existsb (fun '(filename, _) => endswith filename ".html") [("notes.txt", ["1.html"])]
  = false
  /\ crawl_directory [("notes.txt", ["1.html"])] = []
  /\ sample_pagerank tape_half (crawl_directory [("notes.txt", ["1.html"])])
       DAMPING SAMPLES 0%nat
     = Raise IndexError.
Proof.
  split; [reflexivity|].
  apply (crawl_empty_directory tape_half [("notes.txt", ["1.html"])] 0%nat).
  reflexivity.
Defined.

(** ** Runs in binary64 *)

Lemma tape_walk_ok : tape_ok tape_walk.
Proof.
  intros i. unfold tape_walk.
  do 11 (destruct i as [|i]; [simpl; split; lra|]).
  simpl. destruct i; split; lra.
Qed.

(** C3 (counterexample). A run of [sample_pagerank] in binary64, ten
    draws on [corpus_fan]: the pages are drawn six times, three times
    and once, the ranks returned are the binary64 numbers nearest to
    [6/10], [3/10] and [1/10], and their sum, as Python's [sum] adds
    them, is [1 - 2^-53] and not [1]. The exact model draws the same
    pages on this tape. *)
Lemma sample_pagerank_sum_not_one :
  link_graph corpus_fan = true
  /\ tape_ok tape_walk
  /\ sample_pagerank tape_walk corpus_fan DAMPING 10 0%nat
     = Ok ([("A", 6 # 10); ("B", 3 # 10); ("C", 1 # 10)], 11%nat)
  /\ B64.sample_pagerank tape_walk corpus_fan B64.DAMPING 10 0%nat
     = Ok ([("A", B64.of_Q (6 # 10)); ("B", B64.of_Q (3 # 10));
            ("C", B64.of_Q (1 # 10))], 11%nat)
  /\ B64.sum [B64.of_Q (6 # 10); B64.of_Q (3 # 10); B64.of_Q (1 # 10)] = below_one
  /\ PrimFloat.eqb below_one PrimFloat.one = false.
Proof.
  split; [reflexivity|]. split; [exact tape_walk_ok|].
  repeat split; vm_compute; reflexivity.
Qed.

(** The convergence test in binary64 answers [True] when the two vectors
    differ by more than the tolerance at every page. *)
Lemma b64_has_not_converged_true (u : nat -> Q) (x y : dict B64.float) (pos : nat) :
  tape_ok u -> keys x <> [] ->
  (forall i, In i (keys x) -> b64_differs x y i = Ok true) ->
  B64.has_not_converged u x y pos = Ok (true, S pos).
Proof.
  intros Hu Hne Hall.
  destruct (choice_ok u (keys x) pos Hu Hne) as [i [Hnth Hc]].
  specialize (Hall i (nth_error_In _ _ Hnth)).
  unfold B64.has_not_converged, bindR at 1. rewrite Hc.
  unfold b64_differs in Hall. unfold bindR, lift, ret.
  destruct (dict_get y i) as [c| |]; try discriminate Hall.
  destruct (dict_get x i) as [p0| |]; try discriminate Hall.
  simpl in Hall. now injection Hall as ->.
Qed.

Lemma b64_loop_step (u : nat -> Q) (fuel : nat) (corpus : corpus_t)
      (damping N : B64.float) (x y z : dict B64.float) (pos : nat) :
  tape_ok u -> keys x <> [] ->
  (forall i, In i (keys x) -> b64_differs x y i = Ok true) ->
  B64.calculate_pr corpus damping y N = Ok z ->
  B64.iterate_loop u (S fuel) corpus damping N x y pos
  = B64.iterate_loop u fuel corpus damping N y z (S pos).
Proof.
  intros Hu Hne Hall Hz. simpl B64.iterate_loop. unfold bindR at 1.
  rewrite (b64_has_not_converged_true u x y pos Hu Hne Hall).
  unfold bindR, lift. now rewrite Hz.
Qed.

Lemma hub_b64_differs (b : bool) (i : page) :
  In i (keys (hub_b64 b)) ->
  b64_differs (hub_b64 b) (hub_b64 (negb b)) i = Ok true.
Proof.
  destruct b; intros [<-|[<-|[<-|[]]]]; vm_compute; reflexivity.
Qed.

Lemma hub_b64_relax (b : bool) :
  B64.calculate_pr corpus_hub below_one (hub_b64 b) (B64.len corpus_hub)
  = Ok (hub_b64 (negb b)).
Proof. destruct b; vm_compute; reflexivity. Qed.

(** Between the two vectors the binary64 loop never stops. *)
Lemma hub_b64_cycle (u : nat -> Q) :
  tape_ok u ->
  forall fuel b pos,
    B64.iterate_loop u fuel corpus_hub below_one (B64.len corpus_hub)
      (hub_b64 b) (hub_b64 (negb b)) pos
    = OutOfFuel.
Proof.
  intros Hu. induction fuel as [|fuel IH]; intros b pos; [reflexivity|].
  rewrite (b64_loop_step u fuel corpus_hub below_one (B64.len corpus_hub)
             (hub_b64 b) (hub_b64 (negb b)) (hub_b64 b)).
  - specialize (IH (negb b) (S pos)). now rewrite negb_involutive in IH.
  - assumption.
  - destruct b; discriminate.
  - apply hub_b64_differs.
  - rewrite <- (negb_involutive b) at 2. apply hub_b64_relax.
Qed.

(** The damping factor [1 - 2^-53], below [1]: in binary64 the loop of
    [iterate_pagerank] on [corpus_hub] never stops, whatever the random
    source yields. *)
Lemma iterate_pagerank_b64_diverges :
  link_graph corpus_hub = true
  /\ PrimFloat.leb PrimFloat.zero below_one = true
  /\ PrimFloat.ltb below_one PrimFloat.one = true
  /\ forall u fuel pos,
       tape_ok u ->
       B64.iterate_pagerank u fuel corpus_hub below_one pos = OutOfFuel.
Proof.
  split; [reflexivity|]. split; [reflexivity|]. split; [reflexivity|].
  intros u fuel pos Hu.
  assert (E0 : exists p, B64.pydiv (PrimFloat.sub PrimFloat.one below_one)
                           (B64.len corpus_hub) = Ok p)
    by (eexists; vm_compute; reflexivity).
  destruct E0 as [p0 E0].
  assert (E1 : dict_of_keys (keys corpus_hub)
                 (fun _ => B64.pydiv PrimFloat.one (B64.len corpus_hub))
               = Ok hub_b64_0) by (vm_compute; reflexivity).
  assert (E2 : B64.calculate_pr corpus_hub below_one hub_b64_0 (B64.len corpus_hub)
               = Ok hub_b64_1) by (vm_compute; reflexivity).
  assert (E3 : B64.calculate_pr corpus_hub below_one hub_b64_1 (B64.len corpus_hub)
               = Ok hub_b64_2) by (vm_compute; reflexivity).
  assert (E4 : B64.calculate_pr corpus_hub below_one hub_b64_2 (B64.len corpus_hub)
               = Ok hub_b64_3) by (vm_compute; reflexivity).
  unfold B64.iterate_pagerank, bindR at 1, lift at 1. rewrite E0.
  unfold bindR at 1, lift at 1. rewrite E1.
  unfold bindR at 1, lift at 1. rewrite E2.
  destruct fuel as [|fuel]; [reflexivity|].
  rewrite (b64_loop_step u fuel corpus_hub below_one (B64.len corpus_hub)
             hub_b64_0 hub_b64_1 hub_b64_2 pos Hu); [|discriminate| |exact E3].
  - destruct fuel as [|fuel]; [reflexivity|].
    rewrite (b64_loop_step u fuel corpus_hub below_one (B64.len corpus_hub)
               hub_b64_1 hub_b64_2 hub_b64_3 (S pos) Hu); [|discriminate| |exact E4].
    + apply (hub_b64_cycle u Hu fuel true).
    + intros i [<-|[<-|[<-|[]]]]; vm_compute; reflexivity.
  - intros i [<-|[<-|[<-|[]]]]; vm_compute; reflexivity.
Qed.
